(** * setup.py: clone the data repository and copy its sub-folders

    A shallow embedding of [setup.py].  The script is a straight line of
    filesystem calls, so the development has three layers:

    - a model of the filesystem as a tree of directories and regular files,
      with the library calls the script makes ([Path.exists], [Path.is_dir],
      [shutil.rmtree], [Path.mkdir(parents=True, exist_ok=True)],
      [shutil.copytree(dirs_exist_ok=True)] and the clone performed by
      [huggingface_hub.Repository]), each following the behaviour of the
      library it comes from;
    - a state-and-exception monad in which the script is written line by
      line; the state is the filesystem together with a log of the library
      calls made so far, which the script itself does not keep: it is there
      to state in which order the calls were made;
    - the properties of the run.

    Scope of the model: directories and regular files (no symbolic links, no
    permissions, no timestamps; every write the operating system is asked
    for succeeds), path components that are plain names (no [.] or [..]),
    and a clone whose content is a parameter of the run. *)

From Stdlib Require Import Strings.Byte Strings.Ascii.
From stdpp Require Import gmap strings list fin_maps.
Set Warnings "-register-all".

(** ** Pure paths (pathlib) *)

Record Path := mkPath { is_absolute : bool; parts : list string }.

Definition parent (p : Path) : Path :=
  mkPath (is_absolute p) (removelast (parts p)).

Definition joinpath (p : Path) (name : string) : Path :=
  mkPath (is_absolute p) (parts p ++ [name]).

Definition name (p : Path) : string := List.last (parts p) EmptyString.

Declare Scope path_scope.
Delimit Scope path_scope with path.
Infix "/" := joinpath : path_scope.
Local Open Scope path_scope.

(** ** The filesystem tree

    A node is a regular file with its bytes or a directory with its entries.
    The tree handed to the script is the one its paths are anchored at: the
    root directory for an absolute [__file__], the working directory
    otherwise.  Filesystem calls only look at the [parts] of a path. *)

Inductive node :=
| File (data : list byte)
| Dir (entries : gmap string node).

(** A slot is what a path may hold: nothing, or a node. *)
Fixpoint walk (slot : option node) (p : list string) : option node :=
  match p with
  | [] => slot
  | c :: p' =>
      match slot with
      | Some (Dir es) => walk (es !! c) p'
      | _ => None
      end
  end.

Definition slot_is_dir (slot : option node) : bool :=
  match slot with Some (Dir _) => true | _ => false end.

Definition slot_entries (slot : option node) : gmap string node :=
  match slot with Some (Dir es) => es | _ => ∅ end.

(** [graft p new slot] replaces what sits at [p] by [new] ([None] removes
    it); nothing happens when the parent of [p] is not a directory. *)
Fixpoint graft (p : list string) (new : option node) (slot : option node)
    : option node :=
  match p with
  | [] => new
  | c :: p' =>
      match slot with
      | Some (Dir es) => Some (Dir (partial_alter (graft p' new) c es))
      | _ => slot
      end
  end.

Definition graft_root (p : list string) (new : option node) (n : node) : node :=
  default n (graft p new (Some n)).

(** ** Exceptions *)

(** [FileNotFoundError] is what line 44 raises (the spec's
    MissingSourceError); [FetchError] stands for the error
    [huggingface_hub] raises when the clone cannot be made; [ShutilError]
    is [shutil.Error]. *)
Inductive exn :=
| NotADirectoryError
| FileExistsError
| FileNotFoundError
| FetchError
| ShutilError.

(** ** makedirs

    [os.makedirs(p, exist_ok=True)] and [Path(p).mkdir(parents=True,
    exist_ok=True)]: every missing directory on the way is created; an
    existing directory is accepted; a regular file at [p] gives
    [FileExistsError], one above [p] gives [NotADirectoryError].  On an
    error nothing has been created. *)
Fixpoint makedirs (p : list string) (slot : option node) : exn + node :=
  match p with
  | [] =>
      match slot with
      | Some (File _) => inl FileExistsError
      | Some (Dir es) => inr (Dir es)
      | None => inr (Dir ∅)
      end
  | c :: p' =>
      match slot with
      | Some (File _) => inl NotADirectoryError
      | Some (Dir es) =>
          match makedirs p' (es !! c) with
          | inr n' => inr (Dir (<[c := n']> es))
          | inl e => inl e
          end
      | None =>
          match makedirs p' None with
          | inr n' => inr (Dir {[c := n']})
          | inl e => inl e
          end
      end
  end.

(** ** copytree

    [shutil.copytree(src, dst, dirs_exist_ok=True)] is
    [os.makedirs(dst, exist_ok=True)] followed by a loop over the entries
    of [src]; [copy_loop] is that loop and [copy_entry] its body.  The body
    never raises: an [OSError] or [shutil.Error] of an entry is recorded
    (the boolean) and the loop goes on; [shutil.Error] is raised after the
    loop when something was recorded.

    - a regular file is copied with [copy2(src/name, dst/name)]; [copy2]
      starts with [if os.path.isdir(dst): dst = os.path.join(dst,
      os.path.basename(src))], so when [dst/name] is a directory the bytes
      go to [dst/name/name], and the copy fails ([IsADirectoryError]) when
      that is a directory too;
    - a directory is copied with a recursive [copytree], whose
      [os.makedirs(dst/name, exist_ok=True)] fails ([FileExistsError]) when
      [dst/name] is a regular file.

    The source tree is read once; the script never copies a tree into
    itself.  [os.scandir] lists the entries in no particular order, and the
    order does not matter: what the loop leaves under a name depends on
    that name alone ([copy_loop_spec]). *)
Definition copy_loop (body : string → node → option node → node * bool)
    (es d0 : gmap string node) : gmap string node * bool :=
  map_fold (λ name child acc,
      let r := body name child (acc.1 !! name) in
      (<[name := r.1]> acc.1, acc.2 || r.2))
    (d0, false) es.

Fixpoint copy_entry (name : string) (child : node) (slot : option node)
    {struct child} : node * bool :=
  match child with
  | File data =>
      match slot with
      | Some (Dir e) =>
          match e !! name with
          | Some (Dir _) => (Dir e, true)
          | _ => (Dir (<[name := File data]> e), false)
          end
      | _ => (File data, false)
      end
  | Dir es =>
      match slot with
      | Some (File x) => (File x, true)
      | Some (Dir d0) =>
          let r := copy_loop copy_entry es d0 in (Dir r.1, r.2)
      | None =>
          let r := copy_loop copy_entry es ∅ in (Dir r.1, r.2)
      end
  end.

(** ** The world and the monad of the script *)

Inductive event :=
| EvRmtree (p : Path)
| EvClone (p : Path)
| EvMkdir (p : Path)
| EvCopytree (src dst : Path).

Record world := mkWorld { fs : node; log : list event }.

Inductive outcome (A : Type) :=
| Done (a : A)
| Raised (e : exn).
Arguments Done {A} a.
Arguments Raised {A} e.

Definition M (A : Type) : Type := world → world * outcome A.

Global Instance M_ret : MRet M := λ A a w, (w, Done a).

Global Instance M_bind : MBind M := λ A B k m w,
  match m w with
  | (w', Done a) => k a w'
  | (w', Raised e) => (w', Raised e)
  end.

Definition raise {A} (e : exn) : M A := λ w, (w, Raised e).

Definition stat (p : Path) : M (option node) :=
  λ w, (w, Done (walk (Some (fs w)) (parts p))).

Definition set_fs (n : node) : M unit :=
  λ w, (mkWorld n (log w), Done ()).

(** Replace what sits at [p]. *)
Definition put_slot (p : Path) (new : option node) : M unit :=
  λ w, set_fs (graft_root (parts p) new (fs w)) w.

(** [os.makedirs(p, exist_ok=True)]; the filesystem is as before when it
    raises. *)
Definition os_makedirs (p : Path) : M unit :=
  λ w, match makedirs (parts p) (Some (fs w)) with
       | inr n => set_fs n w
       | inl e => raise e w
       end.

Definition record (e : event) : M unit :=
  λ w, (mkWorld (fs w) (log w ++ [e]), Done ()).

Fixpoint for_each {A} (l : list A) (body : A → M unit) : M unit :=
  match l with
  | [] => mret ()
  | x :: l' => body x ;; for_each l' body
  end.

(** ** The library calls of the script *)

(** [Path.exists()] *)
Definition path_exists (p : Path) : M bool :=
  s ← stat p; mret (bool_decide (is_Some s)).

(** [Path.is_dir()] *)
Definition is_dir (p : Path) : M bool :=
  s ← stat p; mret (slot_is_dir s).

(** [shutil.rmtree(p)]: removes the directory [p] with all it contains;
    raises [NotADirectoryError] on a regular file. *)
Definition rmtree (p : Path) : M unit :=
  record (EvRmtree p) ;;
  s ← stat p;
  match s with
  | Some (Dir _) => put_slot p None
  | Some (File _) => raise NotADirectoryError
  | None => raise FileNotFoundError
  end.

(** [Path.mkdir(parents=True, exist_ok=True)] *)
Definition mkdir (p : Path) : M unit :=
  record (EvMkdir p) ;;
  os_makedirs p.

(** [Repository(local_dir=p, clone_from=url, use_auth_token=True)]: the
    constructor creates [local_dir] ([os.makedirs(local_dir,
    exist_ok=True)]) and clones into it when it is empty.  [remote] is the
    working tree a successful clone delivers, [None] when the clone cannot
    be made (network, authentication, no such repository).  Into a
    directory that is not empty the library does not clone (it keeps it when
    it already is a clone of the same remote and raises otherwise); the
    model raises there, and the script, which removes the directory first,
    never gets there (see [fetch_run]). *)
Definition Repository (local_dir : Path) (remote : option (gmap string node))
    : M unit :=
  record (EvClone local_dir) ;;
  os_makedirs local_dir ;;
  s ← stat local_dir;
  if bool_decide (slot_entries s = ∅) then
    match remote with
    | Some tree => put_slot local_dir (Some (Dir tree))
    | None => raise FetchError
    end
  else raise FetchError.

(** [shutil.copytree(src, dst, dirs_exist_ok=True)] *)
Definition copytree (src dst : Path) : M unit :=
  record (EvCopytree src dst) ;;
  s ← stat src;
  match s with
  | Some (Dir es) =>
      os_makedirs dst ;;
      d ← stat dst;
      let r := copy_loop copy_entry es (slot_entries d) in
      put_slot dst (Some (Dir r.1)) ;;
      if r.2 then raise ShutilError else mret ()
  | Some (File _) => raise NotADirectoryError
  | None => raise FileNotFoundError
  end.

(** ** The script *)

(** Lines 7 and 8. *)
Definition project_root (file : Path) : Path := parent file.
Definition tmp_repo (file : Path) : Path := project_root file / "tmp_hf_repo".

(** Lines 11 to 17. *)
Definition fetch (file : Path) (remote : option (gmap string node)) : M unit :=
  e ← path_exists (tmp_repo file);
  (if (e : bool) then rmtree (tmp_repo file) else mret ()) ;;
  Repository (tmp_repo file) remote.

(** Lines 21 to 38: the dict, in insertion order. *)
Definition tasks (file : Path) : list (string * list (Path * string)) :=
  [ ("data_vocab",
      [ (project_root file / "Evaluation" / "try1", "data");
        (project_root file / "ML" / "try1", "data") ]);
    ("models_vocab",
      [ (project_root file / "Evaluation" / "try1", "models");
        (project_root file / "ML" / "try1", "models") ]);
    ("data _enronsent",
      [ (project_root file / "ML" / "try2", "data");
        (project_root file / "Evaluation" / "try2", "data") ]);
    ("models_enronsent",
      [ (project_root file / "ML" / "try2", "models");
        (project_root file / "Evaluation" / "try2", "models") ]) ].

(** Lines 45 to 48: the body of the inner loop. *)
Definition copy_dest (src : Path) (d : Path * string) : M unit :=
  let base_dir := d.1 in
  let sub := d.2 in
  let dest := base_dir / sub in
  mkdir dest ;;
  copytree src dest.

(** Lines 41 to 48: the body of the outer loop. *)
Definition copy_task (tmp : Path) (t : string * list (Path * string))
    : M unit :=
  let remote_folder := t.1 in
  let destinations := t.2 in
  let src := tmp / remote_folder in
  b ← is_dir src;
  if negb b then raise FileNotFoundError
  else for_each destinations (copy_dest src).

Definition copy_all (tmp : Path) (ts : list (string * list (Path * string)))
    : M unit :=
  for_each ts (copy_task tmp).

Definition main (file : Path) (remote : option (gmap string node)) : M unit :=
  fetch file remote ;;
  copy_all (tmp_repo file) (tasks file).

(** * Notions used by the properties *)

(** What the filesystem of a world holds at a path. *)
Definition look (w : world) (p : list string) : option node :=
  walk (Some (fs w)) p.

(** The destination path of a pair of the table (line 46). *)
Definition dest_of (d : Path * string) : Path := d.1 / d.2.

(** ** Diverging paths

    Two paths diverge when they differ at some component before either
    ends: neither lies under the other. *)
Fixpoint diverge (p q : list string) : bool :=
  match p, q with
  | a :: p', b :: q' => if decide (a = b) then diverge p' q' else true
  | _, _ => false
  end.

(** The number of nodes of a tree, for induction on trees. *)
Fixpoint node_size (n : node) : nat :=
  match n with
  | File _ => 1
  | Dir es => S (map_fold (λ _ c acc, node_size c + acc) 0 es)
  end.

(** ** The copy loop as a sequence of steps

    The nested loop of lines 41 to 48 runs, in order, one check per key
    (line 43) followed by one copy per destination of that key (lines 46 to
    48). *)
Inductive step :=
| IsDir (src : Path)
| CopyTo (src : Path) (d : Path * string).

Definition exec (s : step) : M unit :=
  match s with
  | IsDir src =>
      b ← is_dir src;
      if negb b then raise FileNotFoundError else mret ()
  | CopyTo src d => copy_dest src d
  end.

Definition steps_of_task (tmp : Path) (t : string * list (Path * string))
    : list step :=
  IsDir (tmp / t.1) :: (CopyTo (tmp / t.1) <$> t.2).

Definition steps (tmp : Path) (ts : list (string * list (Path * string)))
    : list step :=
  concat (steps_of_task tmp <$> ts).

(** A step avoids a path when it is a check, or a copy whose destination
    diverges from the path. *)
Definition avoids (q : list string) (s : step) : Prop :=
  match s with
  | IsDir _ => True
  | CopyTo _ d => diverge (parts (dest_of d)) q = true
  end.

(** Every destination of [ts] diverges from [q]. *)
Definition dests_avoid (q : list string)
    (ts : list (string * list (Path * string))) : Prop :=
  Forall (λ t, Forall (λ d, diverge (parts (dest_of d)) q = true) t.2) ts.

(** The paths a step depends on. *)
Definition reads (s : step) : list (list string) :=
  match s with
  | IsDir src => [parts src]
  | CopyTo src d => [parts src; parts (dest_of d)]
  end.

(** A copy step whose destination diverges from its source. *)
Definition step_ok (s : step) : Prop :=
  match s with
  | IsDir _ => True
  | CopyTo src d => diverge (parts (dest_of d)) (parts src) = true
  end.

(** No step writes where an earlier step reads or writes. *)
Fixpoint separated (l : list step) : Prop :=
  match l with
  | [] => True
  | s :: l' =>
      step_ok s ∧ Forall (λ p, Forall (avoids p) l') (reads s) ∧ separated l'
  end.

(** The run up to, and without, entry [i] of the table. *)
Definition main_upto (i : nat) (file : Path)
    (remote : option (gmap string node)) : M unit :=
  fetch file remote ;;
  copy_all (tmp_repo file) (take i (tasks file)).

(** ** Reading the log *)

(** The [(source, destination)] pairs of the [copytree] calls of a log, in
    the order of the calls. *)
Definition copies (lg : list event) : list (Path * Path) :=
  omap (λ e, match e with EvCopytree s d => Some (s, d) | _ => None end) lg.

(** The pairs the table asks for, in the order of the table. *)
Definition task_pairs (tmp : Path) (t : string * list (Path * string))
    : list (Path * Path) :=
  (λ d, (tmp / t.1, dest_of d)) <$> t.2.

Definition pairs (tmp : Path) (ts : list (string * list (Path * string)))
    : list (Path * Path) :=
  concat (task_pairs tmp <$> ts).

(** The calls one pass of the inner loop logs, and those of a whole key. *)
Definition dest_events (src : Path) (d : Path * string) : list event :=
  [EvMkdir (dest_of d); EvCopytree src (dest_of d)].

Definition task_events (tmp : Path) (t : string * list (Path * string))
    : list event :=
  concat (dest_events (tmp / t.1) <$> t.2).

Definition events (tmp : Path) (ts : list (string * list (Path * string)))
    : list event :=
  concat (task_events tmp <$> ts).

(** The path an event writes at. *)
Definition written (e : event) : Path :=
  match e with
  | EvRmtree p | EvClone p | EvMkdir p | EvCopytree _ p => p
  end.

(** The paths an event names. *)
Definition named (e : event) : list Path :=
  match e with
  | EvRmtree p | EvClone p | EvMkdir p => [p]
  | EvCopytree s p => [s; p]
  end.

(** [p] lies below [root]. *)
Definition below (root p : Path) : Prop :=
  is_absolute p = is_absolute root ∧ ∃ r, parts p = parts root ++ r.

(** ** The table as the specification lists it *)

(** The layout section of the specification: for each remote sub-folder, the
    directories it is copied to, in the order they are listed. *)
Definition spec_layout (root : Path) : list (string * list Path) :=
  [ ("data_vocab",
      [ root / "Evaluation" / "try1" / "data"; root / "ML" / "try1" / "data" ]);
    ("models_vocab",
      [ root / "Evaluation" / "try1" / "models";
        root / "ML" / "try1" / "models" ]);
    ("data _enronsent",
      [ root / "ML" / "try2" / "data"; root / "Evaluation" / "try2" / "data" ]);
    ("models_enronsent",
      [ root / "ML" / "try2" / "models";
        root / "Evaluation" / "try2" / "models" ]) ].

(** The table relative to the project root: a constant. *)
Definition tasks_rel : list (string * list (list string * string)) :=
  [ ("data_vocab", [ (["Evaluation"; "try1"], "data");
                     (["ML"; "try1"], "data") ]);
    ("models_vocab", [ (["Evaluation"; "try1"], "models");
                       (["ML"; "try1"], "models") ]);
    ("data _enronsent", [ (["ML"; "try2"], "data");
                          (["Evaluation"; "try2"], "data") ]);
    ("models_enronsent", [ (["ML"; "try2"], "models");
                           (["Evaluation"; "try2"], "models") ]) ].

(** An entry of the relative table placed under [root]. *)
Definition rebase (root : Path) (t : string * list (list string * string))
    : string * list (Path * string) :=
  (t.1, (λ d, (mkPath (is_absolute root) (parts root ++ d.1), d.2)) <$> t.2).

(** The keys of a table, and the directories it asks to copy to. *)
Definition keys (ts : list (string * list (Path * string))) : list string :=
  fst <$> ts.

Definition layout_of_task (t : string * list (Path * string))
    : string * list Path :=
  (t.1, dest_of <$> t.2).

Definition layout (ts : list (string * list (Path * string)))
    : list (string * list Path) :=
  layout_of_task <$> ts.

Definition two_dests (t : string * list (Path * string)) : Prop :=
  length t.2 = 2.

(** ** Concrete filesystems

    The script sits in [/proj]; the remote repository has the four
    sub-folders of the table, each with a file [f.txt]. *)
Definition ex_file : Path := mkPath true ["proj"; "setup.py"].

Definition ex_remote : gmap string node :=
  {[ "data_vocab" := Dir {[ "f.txt" := File [x01] ]};
     "models_vocab" := Dir {[ "f.txt" := File [x02] ]};
     "data _enronsent" := Dir {[ "f.txt" := File [x03] ]};
     "models_enronsent" := Dir {[ "f.txt" := File [x04]; "sub" := Dir ∅ ]} ]}.

(** The same remote with the third folder named without the space. *)
Definition ex_remote_nospace : gmap string node :=
  {[ "data_vocab" := Dir {[ "f.txt" := File [x01] ]};
     "models_vocab" := Dir {[ "f.txt" := File [x02] ]};
     "data_enronsent" := Dir {[ "f.txt" := File [x03] ]};
     "models_enronsent" := Dir {[ "f.txt" := File [x04] ]} ]}.

(** A fresh checkout: only the script. *)
Definition ex_world : world :=
  mkWorld (Dir {[ "proj" := Dir {[ "setup.py" := File [] ]} ]}) [].

(** A clone of an earlier run is still there, with a file the remote no
    longer has. *)
Definition ex_world_stale : world :=
  mkWorld (Dir {[ "proj" := Dir {[ "setup.py" := File [];
                                   "tmp_hf_repo" :=
                                     Dir {[ "old.bin" := File [xff] ]} ]} ]})
          [].

(** [tmp_hf_repo] is a regular file. *)
Definition ex_world_file : world :=
  mkWorld (Dir {[ "proj" := Dir {[ "setup.py" := File [];
                                   "tmp_hf_repo" := File [xff] ]} ]})
          [].

(** [Evaluation/try1/data] is there already and holds a directory named
    [f.txt]. *)
Definition ex_world_conflict : world :=
  mkWorld (Dir {[ "proj" := Dir {[
    "setup.py" := File [];
    "Evaluation" := Dir {[ "try1" := Dir {[ "data" := Dir {[
       "f.txt" := Dir ∅ ]} ]} ]} ]} ]}) [].

(** [ML/try2/models] is there already and holds a directory [f.txt] with a
    file [f.txt] in it. *)
Definition ex_world_nested : world :=
  mkWorld (Dir {[ "proj" := Dir {[
    "setup.py" := File [];
    "ML" := Dir {[ "try2" := Dir {[ "models" := Dir {[
       "f.txt" := Dir {[ "f.txt" := File [xff] ]} ]} ]} ]} ]} ]}) [].

(** [ML/try1/data] is there already, with an older [f.txt] and a file the
    remote does not have. *)
Definition ex_world_merge : world :=
  mkWorld (Dir {[ "proj" := Dir {[
    "setup.py" := File [];
    "ML" := Dir {[ "try1" := Dir {[ "data" := Dir {[
       "f.txt" := File [xbb]; "keep.txt" := File [xaa] ]} ]} ]} ]} ]}) [].

(** [redirect name child slot q]: copying [child], the entry [name] of the
    source, onto [slot] writes at [q] by the redirection of [copy2]: a
    regular file of the source meets a directory of the destination, and
    [q] is the entry of that directory named as the file. *)
Fixpoint redirect (name : string) (child slot : option node) (q : list string)
    {struct q} : bool :=
  match q with
  | [] => false
  | b :: q' =>
      match child with
      | Some (File _) =>
          match q' with
          | [] => slot_is_dir slot && bool_decide (b = name)
          | _ => false
          end
      | Some (Dir es) =>
          match slot with
          | Some (Dir d0) => redirect b (es !! b) (d0 !! b) q'
          | _ => false
          end
      | None => false
      end
  end.

(** A script location given as a relative path. *)
Definition ex_file_rel : Path := mkPath false ["setup.py"].

(** A remote whose first folder has two files. *)
Definition ex_remote_two : gmap string node :=
  {[ "data_vocab" := Dir {[ "f.txt" := File [x01]; "g.txt" := File [x05] ]};
     "models_vocab" := Dir {[ "f.txt" := File [x02] ]};
     "data _enronsent" := Dir {[ "f.txt" := File [x03] ]};
     "models_enronsent" := Dir {[ "f.txt" := File [x04]; "sub" := Dir ∅ ]} ]}.

(** [Evaluation/try1/data] is there already: [f.txt] is a directory with a
    file in it, [g.txt] an older file, [keep.txt] a file the remote does not
    have. *)
Definition ex_world_mixed : world :=
  mkWorld (Dir {[ "proj" := Dir {[
    "setup.py" := File [];
    "Evaluation" := Dir {[ "try1" := Dir {[ "data" := Dir {[
       "f.txt" := Dir {[ "old.txt" := File [xee] ]};
       "g.txt" := File [xbb];
       "keep.txt" := File [xaa] ]} ]} ]} ]} ]}) [].

(** ** Notions for the further properties *)

(** [b] keeps the kind of [a]: what was a regular file is a regular file,
    what was a directory is a directory. *)
Definition kind_kept (a b : option node) : Prop :=
  match a with
  | None => True
  | Some (File _) => ∃ data, b = Some (File data)
  | Some (Dir _) => slot_is_dir b = true
  end.

(** [slot] holds a regular file with the bytes [data], at the slot or
    anywhere below it. *)
Definition holds (slot : option node) (data : list byte) : Prop :=
  ∃ r, walk slot r = Some (File data).

(** No regular file sits at [p] or above it. *)
Fixpoint clear (p : list string) (slot : option node) {struct p} : bool :=
  match slot with
  | Some (File _) => false
  | Some (Dir es) =>
      match p with
      | [] => true
      | c :: p' => clear p' (es !! c)
      end
  | None => true
  end.

(** A source node and a destination slot are compatible when the
    destination has no directory where the source has a regular file and no
    regular file where the source has a directory. *)
Fixpoint compatible (child : node) (slot : option node) {struct child}
    : bool :=
  match child with
  | File _ => negb (slot_is_dir slot)
  | Dir es =>
      match slot with
      | Some (File _) => false
      | Some (Dir d0) =>
          map_fold (λ name c acc, acc && compatible c (d0 !! name)) true es
      | None => true
      end
  end.

(** The [(source, destination)] pairs of the copy steps of a sequence. *)
Definition step_pairs (l : list step) : list (Path * Path) :=
  omap (λ s, match s with
             | CopyTo src d => Some (src, dest_of d)
             | IsDir _ => None
             end) l.

(** The destination of a copy step diverges from every path another step
    depends on. *)
Definition apart (s s' : step) : Prop :=
  match s with
  | IsDir _ => True
  | CopyTo _ d => Forall (λ p, diverge (parts (dest_of d)) p = true) (reads s')
  end.

(** Any two steps of the sequence are apart, and a copy step does not write
    where it reads from. *)
Fixpoint all_apart (l : list step) : Prop :=
  match l with
  | [] => True
  | s :: l' =>
      step_ok s ∧ Forall (apart s) l' ∧ Forall (λ s', apart s' s) l'
      ∧ all_apart l'
  end.

(** What a step needs to complete: its source is a directory; for a copy,
    moreover, no regular file is at or above the destination and the
    destination is compatible with the source. *)
Definition ready (s : step) (w : world) : Prop :=
  match s with
  | IsDir src => slot_is_dir (look w (parts src)) = true
  | CopyTo src d =>
      ∃ es, look w (parts src) = Some (Dir es)
            ∧ clear (parts (dest_of d)) (Some (fs w)) = true
            ∧ compatible (Dir es) (look w (parts (dest_of d))) = true
  end.

(** [ML] is a regular file. *)
Definition ex_world_blocked : world :=
  mkWorld (Dir {[ "proj" := Dir {[ "setup.py" := File [];
                                   "ML" := File [xee] ]} ]}) [].

(** * Properties of the filesystem model *)

Lemma diverge_sym p q : diverge p q = diverge q p.
Proof.
  revert q; induction p as [|a p IH]; intros [|b q]; simpl; try done.
  repeat case_decide; subst; done.
Qed.

Lemma diverge_app_r p q r : diverge p q = true → diverge p (q ++ r) = true.
Proof.
  revert q; induction p as [|a p IH]; intros [|b q]; simpl; try done.
  case_decide; auto.
Qed.

Lemma diverge_common r p q : diverge (r ++ p) (r ++ q) = diverge p q.
Proof. induction r as [|a r IH]; simpl; [done|]. by case_decide. Qed.

(** ** walk and graft *)

Lemma walk_None p : walk None p = None.
Proof. by destruct p. Qed.

Lemma walk_app slot p q : walk slot (p ++ q) = walk (walk slot p) q.
Proof.
  revert slot; induction p as [|c p IH]; intros slot; simpl; [done|].
  destruct slot as [[|es]|]; simpl; auto using walk_None.
Qed.

Lemma walk_graft_diverge p q new slot :
  diverge p q = true → walk (graft p new slot) q = walk slot q.
Proof.
  revert q slot; induction p as [|a p IH]; intros [|b q] slot; simpl; try done.
  intros Hd. destruct slot as [[|es]|]; simpl; try done.
  rewrite lookup_partial_alter. case_decide; subst; [|done].
  by apply IH.
Qed.

Lemma walk_graft_under p r new slot :
  is_Some (walk slot p) → walk (graft p new slot) (p ++ r) = walk new r.
Proof.
  revert slot; induction p as [|a p IH]; intros slot; simpl; [done|].
  destruct slot as [[|es]|]; simpl; try (by intros [? ?]).
  intros Hs. rewrite lookup_partial_alter_eq. by apply IH.
Qed.

Lemma graft_root_Some p new n :
  p ≠ [] → Some (graft_root p new n) = graft p new (Some n).
Proof. destruct p; [done|]. intros _. unfold graft_root. by destruct n. Qed.

(** ** makedirs *)

Lemma makedirs_walk p r slot n :
  makedirs p slot = inr n →
  walk (Some n) (p ++ r) = walk (Some (Dir (slot_entries (walk slot p)))) r.
Proof.
  revert slot n; induction p as [|c p IH]; intros slot n; simpl.
  - destruct slot as [[|es]|]; intros; by simplify_eq.
  - destruct slot as [[|es]|]; try done.
    + destruct (makedirs p (es !! c)) as [|n'] eqn:E; intros; simplify_eq.
      simpl. rewrite lookup_insert_eq. by apply IH.
    + destruct (makedirs p None) as [|n'] eqn:E; intros; simplify_eq.
      simpl. rewrite lookup_singleton_eq, (IH _ _ E). by rewrite walk_None.
Qed.

Lemma makedirs_diverge p q slot n :
  makedirs p slot = inr n → diverge p q = true →
  walk (Some n) q = walk slot q.
Proof.
  revert q slot n; induction p as [|c p IH]; intros [|b q] slot n; simpl;
    try done.
  intros Hm Hd. destruct slot as [[|es]|]; try done.
  - destruct (makedirs p (es !! c)) as [|n'] eqn:E; simplify_eq. simpl.
    case_decide; subst.
    + rewrite lookup_insert_eq. by eapply IH.
    + by rewrite lookup_insert_ne.
  - destruct (makedirs p None) as [|n'] eqn:E; simplify_eq. simpl.
    case_decide; subst.
    + rewrite lookup_singleton_eq.
      erewrite IH by done. apply walk_None.
    + rewrite lookup_singleton_ne by done. apply walk_None.
Qed.

(** On a directory that exists, [makedirs] changes nothing. *)
Lemma makedirs_id p n d :
  walk (Some n) p = Some (Dir d) → makedirs p (Some n) = inr n.
Proof.
  revert n; induction p as [|c p IH]; intros n; simpl.
  - by intros [= ->].
  - destruct n as [|es]; [done|]. intros Hw.
    destruct (es !! c) as [n'|] eqn:E; [|by rewrite walk_None in Hw].
    rewrite (IH _ Hw). by rewrite insert_id.
Qed.

(** [makedirs] only fails on a regular file at or above the path. *)
Lemma makedirs_inl p slot e :
  makedirs p slot = inl e →
  ∃ q r data, p = q ++ r ∧ walk slot q = Some (File data).
Proof.
  revert slot e; induction p as [|c p IH]; intros slot e; simpl.
  - destruct slot as [[data|es]|]; try done. intros _. by exists [], [], data.
  - destruct slot as [[data|es]|].
    + intros _. by exists [], (c :: p), data.
    + destruct (makedirs p (es !! c)) as [e'|] eqn:E; [|done].
      intros _. destruct (IH _ _ E) as (q & r & data & -> & Hw).
      by exists (c :: q), r, data.
    + destruct (makedirs p None) as [e'|] eqn:E; [|done].
      intros _. destruct (IH _ _ E) as (q & r & data & -> & Hw).
      by rewrite walk_None in Hw.
Qed.

Lemma graft_id p slot x : walk slot p = Some x → graft p (Some x) slot = slot.
Proof.
  revert slot; induction p as [|c p IH]; intros slot; simpl; [done|].
  destruct slot as [[|es]|]; try done. intros Hw. do 2 f_equal.
  apply map_eq; intros k. rewrite lookup_partial_alter.
  case_decide; subst; auto.
Qed.

Lemma graft_graft p a b slot : graft p a (graft p b slot) = graft p a slot.
Proof.
  revert slot; induction p as [|c p IH]; intros slot; simpl; [done|].
  destruct slot as [[|es]|]; try done. do 2 f_equal.
  apply map_eq; intros k. rewrite !lookup_partial_alter.
  repeat case_decide; subst; done.
Qed.

(** What [makedirs] builds where a directory has just been removed. *)
Lemma makedirs_after_remove_graft p slot d :
  p ≠ [] → walk slot p = Some (Dir d) →
  ∃ n, makedirs p (graft p None slot) = inr n
       ∧ Some n = graft p (Some (Dir ∅)) slot.
Proof.
  revert slot; induction p as [|c p IH]; intros slot Hp; [done|]. simpl.
  destruct slot as [[|es]|]; try done. intros Hw.
  rewrite lookup_partial_alter_eq.
  destruct p as [|c' p].
  - simpl. eexists; split; [done|]. do 2 f_equal.
    apply map_eq; intros k. rewrite lookup_insert, !lookup_partial_alter.
    by case_decide.
  - destruct (IH (es !! c)) as (n' & -> & Hn'); [done..|].
    eexists; split; [done|]. do 2 f_equal.
    apply map_eq; intros k. rewrite lookup_insert, !lookup_partial_alter.
    by case_decide.
Qed.

(** ** The copy loop, entry by entry *)

Lemma copy_loop_spec body es d0 :
  (∀ k, (copy_loop body es d0).1 !! k =
        match es !! k with
        | Some c => Some (body k c (d0 !! k)).1
        | None => d0 !! k
        end)
  ∧ ((copy_loop body es d0).2 = true ↔
     ∃ k c, es !! k = Some c ∧ (body k c (d0 !! k)).2 = true).
Proof.
  unfold copy_loop.
  apply (map_fold_weak_ind (λ r m,
    (∀ k, r.1 !! k = match m !! k with
                     | Some c => Some (body k c (d0 !! k)).1
                     | None => d0 !! k
                     end)
    ∧ (r.2 = true ↔ ∃ k c, m !! k = Some c ∧ (body k c (d0 !! k)).2 = true))).
  - split; [intros k; by rewrite lookup_empty|].
    split; [done|]. intros (k & c & Hk & _). by rewrite lookup_empty in Hk.
  - intros i x m r Hi [Hl He]. simpl.
    assert (r.1 !! i = d0 !! i) as Hri by (by rewrite Hl, Hi).
    rewrite Hri. split.
    + intros k. rewrite !lookup_insert. case_decide; subst; [done|]. apply Hl.
    + rewrite orb_true_iff, He. split.
      * intros [(k & c & Hk & Hb)|Hb].
        -- exists k, c. split; [|done]. rewrite lookup_insert_ne; [done|].
           intros ->. by rewrite Hi in Hk.
        -- exists i, x. by rewrite lookup_insert_eq.
      * intros (k & c & Hk & Hb). rewrite lookup_insert in Hk.
        case_decide; simplify_eq; [by right|]. left. by exists k, c.
Qed.

Lemma copy_loop_lookup body es d0 k :
  (copy_loop body es d0).1 !! k =
  match es !! k with
  | Some c => Some (body k c (d0 !! k)).1
  | None => d0 !! k
  end.
Proof. apply copy_loop_spec. Qed.

Lemma copy_loop_clean body es d0 k c :
  (copy_loop body es d0).2 = false → es !! k = Some c →
  (body k c (d0 !! k)).2 = false.
Proof.
  intros He Hk. apply not_true_is_false. intros Hb.
  apply not_true_iff_false in He. apply He, copy_loop_spec. eauto.
Qed.

(** Frame: a path the source does not have is left as it was, unless it is
    where [copy2] redirects a file of the source. *)
Lemma redirect_None name child q : redirect name child None q = false.
Proof. destruct q as [|b [|? ?]]; destruct child as [[?|?]|]; done. Qed.

Lemma copy_entry_frame p name child slot :
  walk (Some child) p = None →
  redirect name (Some child) slot p = false →
  walk (Some (copy_entry name child slot).1) p = walk slot p.
Proof.
  revert name child slot; induction p as [|c p IH]; intros name child slot;
    [done|].
  intros Hw Hr. destruct child as [data|es].
  - destruct slot as [[x|e]|]; [done| |done]. cbn [copy_entry].
    destruct (e !! name) as [[y|e']|] eqn:E; cbn [fst walk]; [|done|].
    + rewrite lookup_insert. case_decide; subst; [|done]. rewrite E.
      destruct p; [|done]. simpl in Hr. by rewrite bool_decide_true in Hr.
    + rewrite lookup_insert. case_decide; subst; [|done]. rewrite E.
      destruct p; [|done]. simpl in Hr. by rewrite bool_decide_true in Hr.
  - simpl in Hw. destruct slot as [[x|d0]|]; [done| |].
    + cbn [copy_entry fst walk]. rewrite copy_loop_lookup.
      destruct (es !! c) as [ch|] eqn:E; [|done].
      apply IH; [done|]. simpl in Hr. by rewrite E in Hr.
    + cbn [copy_entry fst walk]. rewrite copy_loop_lookup, lookup_empty.
      destruct (es !! c) as [ch|] eqn:E; [|done].
      rewrite IH; auto using redirect_None, walk_None.
Qed.

(** The paths of a redirection: [n/n] below where the source has the regular
    file [n] and the destination a directory. *)
Lemma redirect_spec q name child slot :
  redirect name (Some child) slot q = true →
  (∃ data, child = File data ∧ q = [name] ∧ slot_is_dir slot = true)
  ∨ ∃ p n data, q = p ++ [n; n]
      ∧ walk (Some child) (p ++ [n]) = Some (File data)
      ∧ slot_is_dir (walk slot (p ++ [n])) = true.
Proof.
  revert name child slot; induction q as [|b q IH]; intros name child slot;
    [done|].
  destruct child as [x|es]; simpl.
  - destruct q; [|done]. intros [Hs Hb]%andb_true_iff.
    apply bool_decide_eq_true in Hb as ->. left. by exists x.
  - destruct slot as [[y|d0]|]; try done.
    destruct (es !! b) as [c|] eqn:E; [|by destruct q].
    intros [(data & -> & -> & Hs)|(p & n & data & -> & Hw & Hs)]%IH; right.
    + exists [], b, data. simpl. by rewrite E.
    + exists (b :: p), n, data. simpl. by rewrite E.
Qed.

(** Files: a regular file of the source arrives with its bytes where the
    destination had no directory. *)
Lemma copy_entry_file p name child slot data :
  (copy_entry name child slot).2 = false →
  walk (Some child) p = Some (File data) →
  slot_is_dir (walk slot p) = false →
  walk (Some (copy_entry name child slot).1) p = Some (File data).
Proof.
  revert name child slot; induction p as [|c p IH]; intros name child slot.
  - intros _ [= ->] Hs. by destruct slot as [[x|e]|].
  - intros He Hw Hs. destruct child as [?|es]; [done|]. simpl in Hw.
    destruct (es !! c) as [ch|] eqn:E; [|by rewrite walk_None in Hw].
    destruct slot as [[x|d0]|]; [done| |].
    + cbn [copy_entry fst snd walk] in *. rewrite copy_loop_lookup, E.
      apply IH; [by eapply copy_loop_clean|done|done].
    + cbn [copy_entry fst snd walk] in *. rewrite copy_loop_lookup, E.
      apply IH; [by eapply copy_loop_clean|done|].
      by rewrite lookup_empty, walk_None.
Qed.

(** Files: where the destination had a directory, the directory stays and
    the file is written inside it under its own name. *)
Lemma copy_entry_file_into p n name child slot data :
  (copy_entry name child slot).2 = false →
  walk (Some child) (p ++ [n]) = Some (File data) →
  slot_is_dir (walk slot (p ++ [n])) = true →
  slot_is_dir (walk (Some (copy_entry name child slot).1) (p ++ [n])) = true
  ∧ walk (Some (copy_entry name child slot).1) (p ++ [n; n])
    = Some (File data).
Proof.
  revert name child slot; induction p as [|c p IH]; intros name child slot.
  - intros He Hw Hs. destruct child as [?|es]; [done|]. simpl in Hw.
    destruct slot as [[x|d0]|]; [done| |done]. simpl in Hs.
    cbn [copy_entry fst snd app walk] in *. rewrite copy_loop_lookup, Hw.
    pose proof (copy_loop_clean _ _ _ _ _ He Hw) as Hc.
    destruct (d0 !! n) as [[y|e]|]; [done| |done]. cbn [copy_entry] in *.
    destruct (e !! n) as [[y|e']|]; [|done|]; cbn [fst walk];
      by rewrite lookup_insert_eq.
  - intros He Hw Hs. destruct child as [?|es]; [done|]. simpl in Hw.
    destruct (es !! c) as [ch|] eqn:E; [|by rewrite walk_None in Hw].
    destruct slot as [[x|d0]|]; [done| |by rewrite walk_None in Hs].
    simpl in Hs. cbn [copy_entry fst snd app walk] in *.
    rewrite copy_loop_lookup, E.
    apply IH; [by eapply copy_loop_clean|done|done].
Qed.

(** Below the entries of a slot as below the slot. *)
Lemma walk_slot_entries slot b q :
  walk (Some (Dir (slot_entries slot))) (b :: q) = walk slot (b :: q).
Proof.
  destruct slot as [[x|e]|]; simpl; by rewrite ?lookup_empty, ?walk_None.
Qed.

(** Directories: a directory of the source, empty or not, is there
    afterwards. *)
Lemma copy_entry_dir p name child slot e :
  (copy_entry name child slot).2 = false →
  walk (Some child) p = Some (Dir e) →
  slot_is_dir (walk (Some (copy_entry name child slot).1) p) = true.
Proof.
  revert name child slot; induction p as [|c p IH]; intros name child slot.
  - intros He [= ->]. by destruct slot as [[x|d0]|].
  - intros He Hw. destruct child as [?|es]; [done|]. simpl in Hw.
    destruct (es !! c) as [ch|] eqn:E; [|by rewrite walk_None in Hw].
    destruct slot as [[x|d0]|]; [done| |].
    + cbn [copy_entry fst snd walk] in *. rewrite copy_loop_lookup, E.
      apply IH; [by eapply copy_loop_clean|done].
    + cbn [copy_entry fst snd walk] in *. rewrite copy_loop_lookup, E.
      apply IH; [by eapply copy_loop_clean|done].
Qed.

(** ** Induction on the size of a tree *)

Lemma node_size_child es k c :
  es !! k = Some c → node_size c < node_size (Dir es).
Proof.
  simpl. intros Hk. apply Nat.lt_succ_r. revert k c Hk.
  apply (map_fold_weak_ind (λ (r : nat) m,
    ∀ k c, m !! k = Some c → node_size c ≤ r)).
  - intros k c. by rewrite lookup_empty.
  - intros i x m r Hi IH k c. rewrite lookup_insert.
    case_decide; simplify_eq; [intros [= <-]; lia|].
    intros Hk. specialize (IH _ _ Hk). lia.
Qed.

(** ** Copying twice is copying once *)

Lemma copy_loop_idem body es d0 :
  (∀ k c slot, es !! k = Some c →
     body k c (Some (body k c slot).1) = body k c slot) →
  copy_loop body es (copy_loop body es d0).1 = copy_loop body es d0.
Proof.
  intros Hb.
  assert (∀ k c, es !! k = Some c →
    body k c ((copy_loop body es d0).1 !! k) = body k c (d0 !! k)) as Hk.
  { intros k c E. rewrite copy_loop_lookup, E. by apply Hb. }
  rewrite (surjective_pairing (copy_loop body es (copy_loop body es d0).1)).
  rewrite (surjective_pairing (copy_loop body es d0)) at 3.
  f_equal.
  - apply map_eq; intros k. rewrite copy_loop_lookup.
    destruct (es !! k) as [c|] eqn:E.
    + by rewrite (Hk _ _ E), copy_loop_lookup, E.
    + by rewrite copy_loop_lookup, E.
  - apply eq_true_iff_eq.
    rewrite (proj2 (copy_loop_spec body es _)),
      (proj2 (copy_loop_spec body es d0)).
    split; intros (k & c & E & H); exists k, c; split; try done.
    + by rewrite <-(Hk _ _ E).
    + by rewrite (Hk _ _ E).
Qed.

Lemma copy_entry_idem name child slot :
  copy_entry name child (Some (copy_entry name child slot).1) =
  copy_entry name child slot.
Proof.
  remember (node_size child) as n eqn:Hn.
  revert name child slot Hn.
  induction n as [n IH] using lt_wf_ind; intros name child slot ->.
  destruct child as [data|es].
  - destruct slot as [[x|e]|]; simpl; try done.
    destruct (e !! name) as [[y|e']|] eqn:E; simpl; rewrite ?E; try done.
    all: by rewrite lookup_insert_eq, insert_insert_eq.
  - assert (∀ d0, copy_loop copy_entry es (copy_loop copy_entry es d0).1
                  = copy_loop copy_entry es d0) as Hl.
    { intros d0. apply copy_loop_idem. intros k c s E.
      eapply IH; [by eapply node_size_child|done]. }
    destruct slot as [[x|d0]|]; cbn [copy_entry fst snd]; [done| |];
      by rewrite Hl.
Qed.

(** * Properties of the calls *)

Ltac unfold_script :=
  unfold mbind, M_bind, mret, M_ret, raise, stat, set_fs, put_slot,
    os_makedirs, record in *.

Lemma bind_run {A B} (m : M A) (k : A → M B) w :
  (m ≫= k) w = match m w with
               | (w', Done a) => k a w'
               | (w', Raised e) => (w', Raised e)
               end.
Proof. done. Qed.

Lemma for_each_app {A} (l1 l2 : list A) body w :
  for_each (l1 ++ l2) body w =
  match for_each l1 body w with
  | (w1, Done _) => for_each l2 body w1
  | (w1, Raised e) => (w1, Raised e)
  end.
Proof.
  revert w; induction l1 as [|x l1 IH]; intros w; simpl; [done|].
  rewrite !bind_run. destruct (body x w) as [w1 [[]|e]]; [apply IH|done].
Qed.

(** An invariant of every iteration is an invariant of the loop, however it
    ends. *)
Lemma for_each_invariant {A} (I : world → Prop) (l : list A) body w :
  (∀ x w0, x ∈ l → I w0 → I (body x w0).1) →
  I w → I (for_each l body w).1.
Proof.
  revert w; induction l as [|x l IH]; intros w Hb Hw; simpl; [done|].
  rewrite bind_run. pose proof (Hb x w (list_elem_of_here _ _) Hw) as H1.
  destruct (body x w) as [w1 [[]|e]]; simpl in *; [|done].
  apply IH; [|done]. intros y w0 Hy. apply Hb. by apply list_elem_of_further.
Qed.

(** A loop that completes has completed each of its iterations. *)
Lemma for_each_done_split {A} (l1 l2 : list A) x body w w' :
  for_each (l1 ++ x :: l2) body w = (w', Done ()) →
  ∃ w1 w2, for_each l1 body w = (w1, Done ())
           ∧ body x w1 = (w2, Done ())
           ∧ for_each l2 body w2 = (w', Done ()).
Proof.
  rewrite for_each_app. destruct (for_each l1 body w) as [w1 [[]|e]]; [|done].
  simpl. rewrite bind_run. destruct (body x w1) as [w2 [[]|e]] eqn:E; [|done].
  intros H. by exists w1, w2.
Qed.

(** ** mkdir followed by copytree *)

Lemma parts_joinpath_ne p s : parts (p / s) ≠ [].
Proof. simpl. by destruct (parts p). Qed.

Lemma mkdir_run p w :
  mkdir p w =
  match makedirs (parts p) (Some (fs w)) with
  | inr n => (mkWorld n (log w ++ [EvMkdir p]), Done ())
  | inl e => (mkWorld (fs w) (log w ++ [EvMkdir p]), Raised e)
  end.
Proof. unfold mkdir. unfold_script. simpl. by destruct makedirs. Qed.

Lemma makedirs_again p slot n : makedirs p slot = inr n → makedirs p (Some n) = inr n.
Proof.
  intros Hm. pose proof (makedirs_walk p [] _ _ Hm) as Hw.
  rewrite app_nil_r in Hw. by eapply makedirs_id.
Qed.

Lemma copytree_run src dst w n :
  makedirs (parts dst) (Some (fs w)) = inr n →
  copytree src dst (mkWorld n (log w ++ [EvMkdir dst])) =
  let lg := log w ++ [EvMkdir dst] ++ [EvCopytree src dst] in
  match walk (Some n) (parts src) with
  | Some (Dir es) =>
      let r := copy_loop copy_entry es
                 (slot_entries (walk (Some n) (parts dst))) in
      (mkWorld (graft_root (parts dst) (Some (Dir r.1)) n) lg,
       if r.2 then Raised ShutilError else Done ())
  | Some (File _) => (mkWorld n lg, Raised NotADirectoryError)
  | None => (mkWorld n lg, Raised FileNotFoundError)
  end.
Proof.
  intros Hm. unfold copytree. unfold_script. simpl.
  rewrite <-!app_assoc. simpl.
  destruct (walk (Some n) (parts src)) as [[x|es]|]; try done.
  cbn [fs log]. rewrite (makedirs_again _ _ _ Hm). unfold set_fs. cbn [fs log].
  by destruct (copy_loop _ _ _).2.
Qed.

Lemma copy_dest_run src d w :
  copy_dest src d w =
  match makedirs (parts (dest_of d)) (Some (fs w)) with
  | inr n => copytree src (dest_of d) (mkWorld n (log w ++ [EvMkdir (dest_of d)]))
  | inl e => (mkWorld (fs w) (log w ++ [EvMkdir (dest_of d)]), Raised e)
  end.
Proof.
  unfold copy_dest. cbv zeta. rewrite bind_run, mkdir_run. fold (dest_of d).
  by destruct makedirs.
Qed.

(** What one pass of the inner loop does to the paths that diverge from
    its destination: nothing. *)
Lemma copy_dest_frame src d w q :
  diverge (parts (dest_of d)) q = true →
  look (copy_dest src d w).1 q = look w q.
Proof.
  intros Hd. rewrite copy_dest_run.
  destruct (makedirs _ _) as [e|n] eqn:Hm; [done|].
  rewrite (copytree_run _ _ _ _ Hm). unfold look.
  pose proof (parts_joinpath_ne d.1 d.2) as Hne. fold (dest_of d) in Hne.
  destruct (walk (Some n) (parts src)) as [[x|es]|]; simpl;
    rewrite ?(graft_root_Some _ _ _ Hne), ?walk_graft_diverge by done;
    by eapply makedirs_diverge.
Qed.

(** What one pass does under its destination, when the source is a
    directory that the destination does not touch: either [mkdir] raised
    and nothing changed, or the destination now holds the result of the
    copy loop. *)
Lemma copy_dest_under src d w es :
  diverge (parts (dest_of d)) (parts src) = true →
  look w (parts src) = Some (Dir es) →
  let c := copy_loop copy_entry es
             (slot_entries (look w (parts (dest_of d)))) in
  (∃ e, (copy_dest src d w).2 = Raised e ∧ fs (copy_dest src d w).1 = fs w)
  ∨ ((∀ q, look (copy_dest src d w).1 (parts (dest_of d) ++ q)
           = walk (Some (Dir c.1)) q)
     ∧ (copy_dest src d w).2 = if c.2 then Raised ShutilError else Done ()).
Proof.
  intros Hd Hs c. rewrite copy_dest_run.
  destruct (makedirs _ _) as [e|n] eqn:Hm; [left; by exists e|]. right.
  rewrite (copytree_run _ _ _ _ Hm).
  pose proof (parts_joinpath_ne d.1 d.2) as Hne. fold (dest_of d) in Hne.
  rewrite (makedirs_diverge _ _ _ _ Hm Hd). unfold look in Hs. rewrite Hs.
  pose proof (makedirs_walk _ [] _ _ Hm) as Hw. rewrite app_nil_r in Hw.
  cbn [walk] in Hw. rewrite Hw. cbn [slot_entries]. fold (look w (parts (dest_of d))).
  fold c. cbn zeta. split; [|by destruct c.2].
  intros q. unfold look. cbn [fst fs].
  rewrite (graft_root_Some _ _ _ Hne).
  apply walk_graft_under. by rewrite Hw.
Qed.

(** * The steps of the copy loop *)

Lemma for_each_fmap {A B} (f : A → B) (l : list A) body w :
  for_each (f <$> l) body w = for_each l (body ∘ f) w.
Proof.
  revert w; induction l as [|x l IH]; intros w; simpl; [done|].
  rewrite !bind_run. simpl. destruct (body (f x) w) as [w1 [[]|e]]; auto.
Qed.

Lemma copy_task_steps tmp t w :
  copy_task tmp t w = for_each (steps_of_task tmp t) exec w.
Proof.
  unfold copy_task, steps_of_task. cbv zeta. cbn [for_each exec].
  rewrite !bind_run. unfold is_dir. rewrite bind_run. unfold stat, mret, M_ret.
  destruct (slot_is_dir _); simpl; [|done].
  by rewrite for_each_fmap.
Qed.

Lemma copy_all_steps tmp ts w :
  copy_all tmp ts w = for_each (steps tmp ts) exec w.
Proof.
  unfold copy_all, steps. revert w.
  induction ts as [|t ts IH]; intros w; [done|].
  cbn [fmap list_fmap concat for_each]. rewrite for_each_app, bind_run.
  rewrite copy_task_steps.
  destruct (for_each (steps_of_task tmp t) exec w) as [w1 [[]|e]]; auto.
Qed.

Lemma exec_check_fs src w : (exec (IsDir src) w).1 = w.
Proof.
  simpl. rewrite bind_run. unfold is_dir. rewrite bind_run.
  unfold stat, mret, M_ret, raise. by destruct (slot_is_dir _).
Qed.

Lemma exec_frame s q r w :
  avoids q s → look (exec s w).1 (q ++ r) = look w (q ++ r).
Proof.
  destruct s as [src|src d]; intros Ha.
  - by rewrite exec_check_fs.
  - apply copy_dest_frame. by apply diverge_app_r.
Qed.

Lemma steps_frame l q r w :
  Forall (avoids q) l →
  look (for_each l exec w).1 (q ++ r) = look w (q ++ r).
Proof.
  intros Hl.
  apply (for_each_invariant (λ w0, look w0 (q ++ r) = look w (q ++ r)));
    [|done].
  intros s w0 Hs <-. apply exec_frame. by eapply Forall_forall.
Qed.

(** A check that was passed saw a directory. *)
Lemma check_passed l src w w1 :
  for_each l exec w = (w1, Done ()) →
  IsDir src ∈ l →
  Forall (avoids (parts src)) l →
  ∃ es, look w (parts src) = Some (Dir es).
Proof.
  intros Hrun (a & b & ->)%list_elem_of_split [Ha _]%Forall_app.
  apply for_each_done_split in Hrun as (wa & w2 & Hwa & Hc & _).
  pose proof (steps_frame a (parts src) [] w Ha) as Hf.
  rewrite Hwa, app_nil_r in Hf. simpl in Hf. rewrite <-Hf.
  simpl in Hc. rewrite bind_run in Hc. unfold is_dir in Hc.
  rewrite bind_run in Hc. unfold stat, mret, M_ret, raise in Hc.
  fold (look wa (parts src)) in Hc.
  destruct (look wa (parts src)) as [[x|es]|]; try done. by exists es.
Qed.

(** The destination of a copy step that no other step touches: after the
    sequence, however it ended, either the run stopped before writing there
    and everything under the destination is as before, or it holds the
    result of the copy loop on what was there before. *)
Lemma steps_at_dest l1 l2 src d w :
  Forall (avoids (parts (dest_of d))) (l1 ++ l2) →
  Forall (avoids (parts src)) l1 →
  diverge (parts (dest_of d)) (parts src) = true →
  IsDir src ∈ l1 →
  let res := for_each (l1 ++ CopyTo src d :: l2) exec w in
  (res.2 ≠ Done ()
   ∧ ∀ q, look res.1 (parts (dest_of d) ++ q) = look w (parts (dest_of d) ++ q))
  ∨ (∃ es, look w (parts src) = Some (Dir es)
       ∧ (∀ q, look res.1 (parts (dest_of d) ++ q)
               = walk (Some (Dir (copy_loop copy_entry es
                    (slot_entries (look w (parts (dest_of d))))).1)) q)
       ∧ (res.2 = Done () →
          (copy_loop copy_entry es
             (slot_entries (look w (parts (dest_of d))))).2 = false)).
Proof.
  intros [Ha Hb]%Forall_app H1 Hds Hin res. subst res.
  rewrite for_each_app.
  pose proof (λ q, steps_frame l1 (parts (dest_of d)) q w Ha) as H1d.
  pose proof (steps_frame l1 (parts src) [] w H1) as H1s.
  destruct (for_each l1 exec w) as [w1 [[]|e]] eqn:E1; cbn [fst] in H1d, H1s.
  2: { left. by split. }
  destruct (check_passed _ _ _ _ E1 Hin H1) as [es Hes].
  rewrite app_nil_r in H1s. rewrite <-H1s in Hes.
  cbn [for_each]. rewrite bind_run. cbn [exec].
  pose proof (H1d []) as Hd0. rewrite app_nil_r in Hd0.
  destruct (copy_dest_under src d w1 es Hds Hes) as [(e & He & Hfs)|[Hq Hr]].
  - left. destruct (copy_dest src d w1) as [w2 r2]. cbn [fst snd] in *.
    subst r2. cbn [fst snd]. split; [done|].
    intros q. unfold look. rewrite Hfs. apply H1d.
  - right. exists es. split; [by rewrite <-H1s|].
    rewrite Hd0 in Hq, Hr.
    pose proof (λ q, steps_frame l2 (parts (dest_of d)) q
                       (copy_dest src d w1).1 Hb) as H2d.
    destruct (copy_dest src d w1) as [w2 r2]. cbn [fst snd] in *. subst r2.
    destruct (copy_loop _ _ _).2; cbn [fst snd]; [by split|].
    split; [|done]. intros q. rewrite H2d. apply Hq.
Qed.

(** * The fetch step (lines 11 to 17) *)

Lemma record_run e w : record e w = (mkWorld (fs w) (log w ++ [e]), Done ()).
Proof. done. Qed.

Lemma stat_run p w : stat p w = (w, Done (look w (parts p))).
Proof. done. Qed.

Lemma ret_run {A} (a : A) w : (mret a : M A) w = (w, Done a).
Proof. done. Qed.

Lemma raise_run {A} e w : @raise A e w = (w, Raised e).
Proof. done. Qed.

Lemma put_slot_run p new w :
  put_slot p new w = (mkWorld (graft_root (parts p) new (fs w)) (log w), Done ()).
Proof. done. Qed.

Lemma os_makedirs_run p w :
  os_makedirs p w =
  match makedirs (parts p) (Some (fs w)) with
  | inr n => (mkWorld n (log w), Done ())
  | inl e => (w, Raised e)
  end.
Proof. unfold os_makedirs. by destruct makedirs. Qed.

Ltac run :=
  repeat first
    [ rewrite bind_run | rewrite record_run | rewrite stat_run
    | rewrite ret_run | rewrite raise_run | rewrite put_slot_run
    | rewrite os_makedirs_run | progress cbn [fs log] ].

Lemma path_exists_run p w :
  path_exists p w = (w, Done (bool_decide (is_Some (look w (parts p))))).
Proof. done. Qed.

Lemma rmtree_run p w :
  rmtree p w =
  let lg := log w ++ [EvRmtree p] in
  match look w (parts p) with
  | Some (Dir _) => (mkWorld (graft_root (parts p) None (fs w)) lg, Done ())
  | Some (File _) => (mkWorld (fs w) lg, Raised NotADirectoryError)
  | None => (mkWorld (fs w) lg, Raised FileNotFoundError)
  end.
Proof.
  unfold rmtree. run. unfold look. cbn [fs].
  destruct (walk _ _) as [[?|?]|]; by run.
Qed.

Lemma Repository_run p remote w :
  Repository p remote w =
  let lg := log w ++ [EvClone p] in
  match makedirs (parts p) (Some (fs w)) with
  | inl e => (mkWorld (fs w) lg, Raised e)
  | inr n =>
      if bool_decide (slot_entries (walk (Some n) (parts p)) = ∅) then
        match remote with
        | Some tree =>
            (mkWorld (graft_root (parts p) (Some (Dir tree)) n) lg, Done ())
        | None => (mkWorld n lg, Raised FetchError)
        end
      else (mkWorld n lg, Raised FetchError)
  end.
Proof.
  unfold Repository. run. destruct (makedirs _ _) as [e|n]; [done|].
  run. unfold look. cbn [fs].
  case_bool_decide; [|by run]. destruct remote; by run.
Qed.

Lemma fetch_run file remote w :
  let tmp := tmp_repo file in
  fetch file remote w =
  match look w (parts tmp) with
  | Some (File _) =>
      (mkWorld (fs w) (log w ++ [EvRmtree tmp]), Raised NotADirectoryError)
  | Some (Dir _) =>
      let lg := log w ++ [EvRmtree tmp; EvClone tmp] in
      match remote with
      | Some tree =>
          (mkWorld (graft_root (parts tmp) (Some (Dir tree)) (fs w)) lg,
           Done ())
      | None =>
          (mkWorld (graft_root (parts tmp) (Some (Dir ∅)) (fs w)) lg,
           Raised FetchError)
      end
  | None =>
      let lg := log w ++ [EvClone tmp] in
      match makedirs (parts tmp) (Some (fs w)) with
      | inl e => (mkWorld (fs w) lg, Raised e)
      | inr n =>
          match remote with
          | Some tree =>
              (mkWorld (graft_root (parts tmp) (Some (Dir tree)) n) lg,
               Done ())
          | None => (mkWorld n lg, Raised FetchError)
          end
      end
  end.
Proof.
  intros tmp. pose proof (parts_joinpath_ne (project_root file) "tmp_hf_repo")
    as Hne. fold (tmp_repo file) in Hne. fold tmp in Hne.
  unfold fetch. fold tmp. rewrite bind_run, path_exists_run, bind_run.
  destruct (look w (parts tmp)) as [[data|old]|] eqn:Hw.
  - rewrite bool_decide_eq_true_2 by eauto. by rewrite rmtree_run, Hw.
  - rewrite bool_decide_eq_true_2 by eauto. rewrite rmtree_run, Hw.
    cbv beta iota zeta. rewrite Repository_run. cbn [fs log].
    rewrite (graft_root_Some _ _ _ Hne).
    destruct (makedirs_after_remove_graft _ _ _ Hne Hw) as (n & -> & Hn).
    pose proof (walk_graft_under (parts tmp) [] (Some (Dir ∅)) (Some (fs w)))
      as Hu. rewrite app_nil_r, <-Hn in Hu. unfold look in Hw.
    rewrite Hu by (by rewrite Hw).
    cbn [walk slot_entries]. rewrite bool_decide_eq_true_2 by done.
    rewrite <-!app_assoc. cbn [app].
    destruct remote as [tree|].
    + do 2 f_equal. apply (inj Some).
      by rewrite !graft_root_Some, Hn, graft_graft.
    + do 2 f_equal. apply (inj Some). by rewrite graft_root_Some.
  - rewrite bool_decide_eq_false_2 by (by intros [? ?]).
    rewrite ret_run. rewrite Repository_run. cbv beta iota zeta.
    destruct (makedirs _ _) as [e|n] eqn:Hm; [done|].
    pose proof (makedirs_walk _ [] _ _ Hm) as Hn.
    unfold look in Hw. rewrite app_nil_r, Hw in Hn.
    cbn [walk slot_entries] in Hn. rewrite Hn. cbn [slot_entries].
    by rewrite bool_decide_eq_true_2 by done.
Qed.

Lemma tmp_repo_ne file : parts (tmp_repo file) ≠ [].
Proof. apply parts_joinpath_ne. Qed.

(** The fetch step only touches the clone directory. *)
Lemma fetch_frame file remote w q :
  diverge (parts (tmp_repo file)) q = true →
  look (fetch file remote w).1 q = look w q.
Proof.
  intros Hd. pose proof (tmp_repo_ne file) as Hne. rewrite fetch_run.
  cbv zeta. unfold look.
  destruct (walk (Some (fs w)) (parts (tmp_repo file))) as [[data|old]|];
    [done| |].
  - destruct remote; cbn [fst fs];
      by rewrite (graft_root_Some _ _ _ Hne), walk_graft_diverge.
  - destruct (makedirs _ _) as [e|n] eqn:Hm; [done|].
    destruct remote; cbn [fst fs];
      rewrite ?(graft_root_Some _ _ _ Hne), ?walk_graft_diverge by done;
      by eapply makedirs_diverge.
Qed.

(** A fetch that completes leaves the cloned tree, and nothing else, in the
    clone directory. *)
Lemma fetch_done file remote w w1 :
  fetch file remote w = (w1, Done ()) →
  ∃ tree, remote = Some tree
          ∧ ∀ q, look w1 (parts (tmp_repo file) ++ q) = walk (Some (Dir tree)) q.
Proof.
  pose proof (tmp_repo_ne file) as Hne. rewrite fetch_run. cbv zeta.
  destruct (look w (parts (tmp_repo file))) as [[data|old]|] eqn:Hw; [done| |].
  - destruct remote as [tree|]; [|done]. intros [= <-]. exists tree.
    split; [done|]. intros q. unfold look. cbn [fs].
    rewrite (graft_root_Some _ _ _ Hne). apply walk_graft_under.
    unfold look in Hw. by rewrite Hw.
  - destruct (makedirs _ _) as [e|n] eqn:Hm; [done|].
    destruct remote as [tree|]; [|done]. intros [= <-]. exists tree.
    split; [done|]. intros q. unfold look. cbn [fs].
    rewrite (graft_root_Some _ _ _ Hne). apply walk_graft_under.
    pose proof (makedirs_walk _ [] _ _ Hm) as Hn. rewrite app_nil_r in Hn.
    by rewrite Hn.
Qed.

(** * The table and its paths *)

Ltac norm_paths :=
  cbn [parts dest_of joinpath tmp_repo fst snd is_absolute] in *;
  rewrite <-?app_assoc in *; cbn [app] in *.

Ltac solve_diverge :=
  norm_paths; rewrite ?diverge_common; reflexivity.

Ltac solve_avoids :=
  repeat (apply Forall_cons; split); try apply Forall_nil;
  first [ exact I | unfold avoids; solve_diverge ].

(** Every destination of the table is written by exactly one step, which
    comes after the check of its key; the other steps write elsewhere. *)
Lemma copy_all_at_dest file w key dests d :
  (key, dests) ∈ tasks file → d ∈ dests →
  let res := copy_all (tmp_repo file) (tasks file) w in
  let D := parts (dest_of d) in
  (res.2 ≠ Done () ∧ ∀ q, look res.1 (D ++ q) = look w (D ++ q))
  ∨ (∃ es, look w (parts (tmp_repo file / key)) = Some (Dir es)
       ∧ (∀ q, look res.1 (D ++ q)
               = walk (Some (Dir (copy_loop copy_entry es
                                    (slot_entries (look w D))).1)) q)
       ∧ (res.2 = Done () →
          (copy_loop copy_entry es (slot_entries (look w D))).2 = false)).
Proof.
  intros Hk Hd res D. subst res D. rewrite copy_all_steps.
  unfold tasks in Hk. unfold tasks, tmp_repo.
  generalize dependent (project_root file). intros root Hk.
  set (S := steps (root / "tmp_hf_repo") _).
  repeat (apply elem_of_cons in Hk as [Hk|Hk]; [simplify_eq|]);
    try (by apply elem_of_nil in Hk);
    repeat (apply elem_of_cons in Hd as [Hd|Hd]; [simplify_eq|]);
    try (by apply elem_of_nil in Hd).
  - apply (steps_at_dest (take 1 S) (drop 2 S)); cbn;
      [solve_avoids | solve_avoids | solve_diverge | set_solver].
  - apply (steps_at_dest (take 2 S) (drop 3 S)); cbn;
      [solve_avoids | solve_avoids | solve_diverge | set_solver].
  - apply (steps_at_dest (take 4 S) (drop 5 S)); cbn;
      [solve_avoids | solve_avoids | solve_diverge | set_solver].
  - apply (steps_at_dest (take 5 S) (drop 6 S)); cbn;
      [solve_avoids | solve_avoids | solve_diverge | set_solver].
  - apply (steps_at_dest (take 7 S) (drop 8 S)); cbn;
      [solve_avoids | solve_avoids | solve_diverge | set_solver].
  - apply (steps_at_dest (take 8 S) (drop 9 S)); cbn;
      [solve_avoids | solve_avoids | solve_diverge | set_solver].
  - apply (steps_at_dest (take 10 S) (drop 11 S)); cbn;
      [solve_avoids | solve_avoids | solve_diverge | set_solver].
  - apply (steps_at_dest (take 11 S) (drop 12 S)); cbn;
      [solve_avoids | solve_avoids | solve_diverge | set_solver].
Qed.

Lemma dest_diverges_tmp file key dests d :
  (key, dests) ∈ tasks file → d ∈ dests →
  diverge (parts (tmp_repo file)) (parts (dest_of d)) = true.
Proof.
  intros Hk Hd. unfold tasks in Hk. unfold tmp_repo.
  generalize dependent (project_root file). intros root Hk.
  repeat (apply elem_of_cons in Hk as [Hk|Hk]; [simplify_eq|]);
    try (by apply elem_of_nil in Hk);
    repeat (apply elem_of_cons in Hd as [Hd|Hd]; [simplify_eq|]);
    try (by apply elem_of_nil in Hd); solve_diverge.
Qed.

Lemma main_run file remote w :
  main file remote w =
  match fetch file remote w with
  | (w1, Done _) => copy_all (tmp_repo file) (tasks file) w1
  | (w1, Raised e) => (w1, Raised e)
  end.
Proof. done. Qed.

(** The run at one destination of the table: either it stopped before
    writing there, or the destination holds the copy of its source
    sub-folder merged into what was there. *)
Lemma main_at_dest file tree w key dests d :
  (key, dests) ∈ tasks file → d ∈ dests →
  let res := main file (Some tree) w in
  let D := parts (dest_of d) in
  (res.2 ≠ Done () ∧ ∀ q, look res.1 (D ++ q) = look w (D ++ q))
  ∨ (∃ es, tree !! key = Some (Dir es)
       ∧ (∀ q, look res.1 (D ++ q)
               = walk (Some (Dir (copy_loop copy_entry es
                                    (slot_entries (look w D))).1)) q)
       ∧ (res.2 = Done () →
          (copy_loop copy_entry es (slot_entries (look w D))).2 = false)).
Proof.
  intros Hk Hd res D. subst res. rewrite main_run.
  pose proof (dest_diverges_tmp _ _ _ _ Hk Hd) as Hdiv. fold D in Hdiv.
  assert (∀ q, look (fetch file (Some tree) w).1 (D ++ q) = look w (D ++ q))
    as Hfr by (intros q; by apply fetch_frame, diverge_app_r).
  destruct (fetch file (Some tree) w) as [w1 [[]|e]] eqn:Hf; cbn [fst] in Hfr.
  2: { left. by split. }
  apply fetch_done in Hf as (tree' & [= <-] & Htmp).
  destruct (copy_all_at_dest file w1 key dests d Hk Hd)
    as [[Hr Hq]|(es & Hes & Hq & Hr)]; fold D in Hq, Hr |- *.
  - left. split; [done|]. intros q. by rewrite Hq.
  - right. exists es. pose proof (Hfr []) as H0. rewrite app_nil_r in H0.
    rewrite H0 in Hq, Hr. split; [|done].
    cbn [parts joinpath] in Hes. by rewrite Htmp in Hes.
Qed.

(** Above a path that exists there are only directories. *)
Lemma walk_prefix_dir slot p k d :
  walk slot p = Some (Dir d) → slot_is_dir (walk slot (take k p)) = true.
Proof.
  rewrite <-(take_drop k p) at 1. rewrite walk_app.
  destruct (walk slot (take k p)) as [[x|e]|]; [|done|by rewrite walk_None].
  destruct (drop k p); done.
Qed.

(** * The order of the copies *)

Lemma copies_app l1 l2 : copies (l1 ++ l2) = copies l1 ++ copies l2.
Proof. apply omap_app. Qed.

Lemma makedirs_inl_kind p slot e :
  makedirs p slot = inl e → e = FileExistsError ∨ e = NotADirectoryError.
Proof.
  revert slot; induction p as [|c p IH]; intros slot; simpl.
  - destruct slot as [[|]|]; intros; simplify_eq; eauto.
  - destruct slot as [[|es]|]; [intros; simplify_eq; eauto| |].
    + destruct (makedirs p (es !! c)) eqn:E; intros; simplify_eq; eauto.
    + destruct (makedirs p None) eqn:E; intros; simplify_eq; eauto.
Qed.

(** One pass of the inner loop on a source that is a directory: it never
    raises [FileNotFoundError], and when it completes it has logged its
    [mkdir] and its [copytree]. *)
Lemma copy_dest_log src d w es :
  diverge (parts (dest_of d)) (parts src) = true →
  look w (parts src) = Some (Dir es) →
  (copy_dest src d w).2 ≠ Raised FileNotFoundError
  ∧ ((copy_dest src d w).2 = Done () →
     log (copy_dest src d w).1 = log w ++ dest_events src d).
Proof.
  intros Hd Hs. rewrite copy_dest_run.
  destruct (makedirs _ _) as [e|n] eqn:Hm.
  - split; [|done]. simpl. intros [= ->].
    by destruct (makedirs_inl_kind _ _ _ Hm).
  - rewrite (copytree_run _ _ _ _ Hm).
    rewrite (makedirs_diverge _ _ _ _ Hm Hd). unfold look in Hs. rewrite Hs.
    cbv zeta. destruct (copy_loop _ _ _).2; by split.
Qed.

Lemma inner_loop_log src ds w es :
  Forall (λ d, diverge (parts (dest_of d)) (parts src) = true) ds →
  look w (parts src) = Some (Dir es) →
  (for_each ds (copy_dest src) w).2 ≠ Raised FileNotFoundError
  ∧ ((for_each ds (copy_dest src) w).2 = Done () →
     log (for_each ds (copy_dest src) w).1 =
     log w ++ concat (dest_events src <$> ds)).
Proof.
  revert w; induction ds as [|d ds IH]; intros w Hds Hs.
  - split; [done|]. intros _. simpl. by rewrite app_nil_r.
  - apply Forall_cons in Hds as [Hd Hds]. cbn [for_each]. rewrite bind_run.
    destruct (copy_dest_log src d w es Hd Hs) as [Hn Hl].
    pose proof (copy_dest_frame src d w (parts src) Hd) as Hf.
    destruct (copy_dest src d w) as [w1 [[]|e]]; cbn [fst snd] in *.
    + destruct (IH w1 Hds) as [IHn IHl]; [by rewrite Hf|].
      split; [done|]. intros Hdone. rewrite (IHl Hdone), (Hl eq_refl).
      cbn [fmap list_fmap concat]. by rewrite <-app_assoc.
    + split; [|done]. congruence.
Qed.

Lemma dests_avoid_steps q tmp ts :
  dests_avoid q ts → Forall (avoids q) (steps tmp ts).
Proof.
  unfold steps. induction 1 as [|t ts Ht _ IH]; [constructor|].
  cbn [fmap list_fmap concat]. apply Forall_app. split; [|done].
  unfold steps_of_task. constructor; [done|].
  apply Forall_fmap. by eapply Forall_impl.
Qed.

Lemma copy_task_run tmp t w :
  copy_task tmp t w =
  if slot_is_dir (look w (parts (tmp / t.1)))
  then for_each t.2 (copy_dest (tmp / t.1)) w
  else (w, Raised FileNotFoundError).
Proof.
  unfold copy_task, is_dir. cbv zeta. run. by destruct (slot_is_dir _).
Qed.

(** The copy loop and [FileNotFoundError]: the loop raises it exactly at the
    first key whose source is not a directory, after the copies of all
    earlier keys and none other. *)
Lemma copy_all_log tmp ts w :
  dests_avoid (parts tmp) ts →
  let res := copy_all tmp ts w in
  (res.2 = Done () → log res.1 = log w ++ events tmp ts)
  ∧ (res.2 = Raised FileNotFoundError →
     ∃ i t, ts !! i = Some t
       ∧ slot_is_dir (look w (parts (tmp / t.1))) = false
       ∧ (∀ j t', j < i → ts !! j = Some t' →
            slot_is_dir (look w (parts (tmp / t'.1))) = true)
       ∧ log res.1 = log w ++ events tmp (take i ts)).
Proof.
  cbv zeta. unfold copy_all, events.
  revert w; induction ts as [|t ts IH]; intros w Hav.
  - split; [|done]. intros _. simpl. by rewrite app_nil_r.
  - apply Forall_cons in Hav as [Ht Hav]. cbn [for_each]. rewrite bind_run.
    rewrite copy_task_run.
    destruct (look w (parts (tmp / t.1))) as [[x|es]|] eqn:Hs;
      cbn [slot_is_dir].
    1,3: split; [done|]; intros _; exists 0, t; cbn [take];
      rewrite Hs; repeat split; try done; [lia|by rewrite app_nil_r].
    assert (Forall (λ d, diverge (parts (dest_of d)) (parts (tmp / t.1)) = true)
              t.2) as Ht'.
    { eapply Forall_impl; [done|]. intros d Hd. by apply diverge_app_r. }
    destruct (inner_loop_log _ _ _ _ Ht' Hs) as [Hn Hl].
    assert (∀ q, look (for_each t.2 (copy_dest (tmp / t.1)) w).1 (parts tmp ++ q)
                 = look w (parts tmp ++ q)) as Hf.
    { intros q.
      apply (for_each_invariant
               (λ w0, look w0 (parts tmp ++ q) = look w (parts tmp ++ q)));
        [|done].
      intros d w0 Hd <-. apply copy_dest_frame, diverge_app_r.
      by eapply Forall_forall in Ht. }
    destruct (for_each t.2 (copy_dest (tmp / t.1)) w) as [w1 [[]|e]];
      cbn [fst snd] in *.
    2: { split; [done|]. congruence. }
    destruct (IH w1 Hav) as [IHd IHr]. split.
    + intros Hdone. rewrite (IHd Hdone), (Hl eq_refl).
      cbn [fmap list_fmap concat]. by rewrite <-app_assoc.
    + intros Hr. destruct (IHr Hr) as (i & t' & Hi & Hmiss & Hearlier & Hlog).
      exists (S i), t'. split; [done|]. cbn [parts joinpath] in *.
      rewrite !Hf in Hmiss. split; [done|]. split.
      * intros [|j] t'' Hj Hjt; simpl in Hjt; simplify_eq.
        -- by rewrite Hs.
        -- rewrite <-Hf. eapply Hearlier; [|done]. lia.
      * rewrite Hlog, (Hl eq_refl). cbn [take fmap list_fmap concat].
        by rewrite <-app_assoc.
Qed.

Lemma copies_dest_events src ds :
  copies (concat (dest_events src <$> ds)) = (λ d, (src, dest_of d)) <$> ds.
Proof.
  induction ds as [|d ds IH]; [done|].
  rewrite !fmap_cons. cbn [concat]. by rewrite copies_app, IH.
Qed.

Lemma copies_events tmp ts : copies (events tmp ts) = pairs tmp ts.
Proof.
  unfold events, pairs. induction ts as [|t ts IH]; [done|].
  rewrite !fmap_cons. cbn [concat]. rewrite copies_app, IH. f_equal.
  apply copies_dest_events.
Qed.

Ltac solve_dests_avoid :=
  unfold dests_avoid;
  repeat first [ apply Forall_nil | apply Forall_cons; split ];
  solve_diverge.

Lemma tasks_avoid_tmp file :
  dests_avoid (parts (tmp_repo file)) (tasks file).
Proof.
  unfold tasks, tmp_repo. generalize (project_root file). intros root.
  solve_dests_avoid.
Qed.

Lemma copy_all_frame tmp ts q r w :
  dests_avoid q ts →
  look (copy_all tmp ts w).1 (q ++ r) = look w (q ++ r).
Proof.
  intros Hav. rewrite copy_all_steps. by apply steps_frame, dests_avoid_steps.
Qed.

(** The copy phase leaves the clone directory as it found it. *)
Lemma copy_all_keeps_clone file w q :
  look (copy_all (tmp_repo file) (tasks file) w).1 (parts (tmp_repo file) ++ q)
  = look w (parts (tmp_repo file) ++ q).
Proof. apply copy_all_frame, tasks_avoid_tmp. Qed.

Lemma fetch_not_missing file remote w :
  (fetch file remote w).2 ≠ Raised FileNotFoundError.
Proof.
  rewrite fetch_run. cbv zeta.
  destruct (look w _) as [[?|?]|]; [done|by destruct remote|].
  destruct (makedirs _ _) as [e|n] eqn:Hm; [|by destruct remote].
  simpl. intros [= ->]. by destruct (makedirs_inl_kind _ _ _ Hm).
Qed.

Lemma fetch_copies file remote w :
  copies (log (fetch file remote w).1) = copies (log w).
Proof.
  rewrite fetch_run. cbv zeta.
  destruct (look w _) as [[?|?]|]; [|destruct remote|];
    try destruct (makedirs _ _); try destruct remote; cbn [fst log];
    rewrite copies_app; simpl; by rewrite app_nil_r.
Qed.

Lemma later_dests_avoid file i j key dests d :
  i ≤ j → tasks file !! j = Some (key, dests) → d ∈ dests →
  dests_avoid (parts (dest_of d)) (take i (tasks file)).
Proof.
  unfold tasks. generalize (project_root file). intros root Hij Hj Hd.
  destruct j as [|[|[|[|j]]]]; simpl in Hj; simplify_eq;
    repeat (apply elem_of_cons in Hd as [Hd|Hd]; [simplify_eq|]);
    try (by apply elem_of_nil in Hd);
    (destruct i as [|[|[|[|i]]]]; [..|lia]); try lia; cbn [take];
    solve_dests_avoid.
Qed.

(** ** What a run logs, however it ends *)

Lemma copy_dest_logged src d w :
  log (copy_dest src d w).1 = log w ++ [EvMkdir (dest_of d)]
  ∨ log (copy_dest src d w).1 = log w ++ dest_events src d.
Proof.
  rewrite copy_dest_run. destruct (makedirs _ _) as [e|n] eqn:Hm; [by left|].
  right. rewrite (copytree_run _ _ _ _ Hm). cbv zeta.
  by destruct (walk (Some n) (parts src)) as [[?|?]|].
Qed.

Lemma steps_log_invariant (P : event → Prop) l w :
  Forall (λ s, match s with
               | IsDir _ => True
               | CopyTo src d => Forall P (dest_events src d)
               end) l →
  ∃ evs, log (for_each l exec w).1 = log w ++ evs ∧ Forall P evs.
Proof.
  intros Hl.
  apply (for_each_invariant (λ w0, ∃ evs, log w0 = log w ++ evs ∧ Forall P evs)).
  - intros s w0 Hs (evs & Hlog & Hevs). eapply Forall_forall in Hl; [|done].
    destruct s as [src|src d].
    + rewrite exec_check_fs. by exists evs.
    + cbn [exec]. destruct (copy_dest_logged src d w0) as [-> | ->].
      * exists (evs ++ [EvMkdir (dest_of d)]). rewrite Hlog, <-app_assoc.
        split; [done|]. apply Forall_app. split; [done|].
        apply Forall_cons in Hl as [Hm _]. by constructor.
      * exists (evs ++ dest_events src d). rewrite Hlog, <-app_assoc.
        split; [done|]. by apply Forall_app.
  - exists []. by rewrite app_nil_r.
Qed.

Lemma fetch_logged file remote w :
  log (fetch file remote w).1 = log w ++ [EvRmtree (tmp_repo file)]
  ∨ log (fetch file remote w).1
    = log w ++ [EvRmtree (tmp_repo file); EvClone (tmp_repo file)]
  ∨ log (fetch file remote w).1 = log w ++ [EvClone (tmp_repo file)].
Proof.
  rewrite fetch_run. cbv zeta.
  destruct (look w _) as [[?|?]|]; [by left|right; left; by destruct remote|].
  right; right. destruct (makedirs _ _); [done|]. by destruct remote.
Qed.

Lemma below_joinpath root p s : below root p → below root (p / s).
Proof.
  intros [Ha [r Hr]]. split; [done|]. exists (r ++ [s]). simpl.
  by rewrite Hr, app_assoc.
Qed.

Lemma below_refl root : below root root.
Proof. split; [done|]. exists []. by rewrite app_nil_r. Qed.

Ltac solve_below :=
  repeat first [ apply below_refl | apply below_joinpath ].

Lemma main_logged (P : event → Prop) file remote w :
  P (EvRmtree (tmp_repo file)) → P (EvClone (tmp_repo file)) →
  Forall (λ s, match s with
               | IsDir _ => True
               | CopyTo src d => Forall P (dest_events src d)
               end) (steps (tmp_repo file) (tasks file)) →
  ∃ evs, log (main file remote w).1 = log w ++ evs ∧ Forall P evs.
Proof.
  intros Hr Hc Hs. rewrite main_run.
  assert (∃ evs, log (fetch file remote w).1 = log w ++ evs ∧ Forall P evs)
    as (evs & Hlog & Hevs).
  { destruct (fetch_logged file remote w) as [->|[->| ->]]; eexists;
      (split; [done|]); by repeat constructor. }
  destruct (fetch file remote w) as [w1 [[]|e]]; cbn [fst] in Hlog;
    [|by exists evs].
  rewrite copy_all_steps.
  destruct (steps_log_invariant P _ w1 Hs) as (evs' & -> & Hevs').
  exists (evs ++ evs'). rewrite Hlog, <-app_assoc. split; [done|].
  by apply Forall_app.
Qed.

(** * The mapping table (lines 21 to 38) *)

(** C5. The table has exactly the four keys "data_vocab", "models_vocab",
    "data _enronsent" (with the space) and "models_enronsent", in this
    order and without repetition; each key has exactly two destination
    pairs, which give the directories of the layout section in the listed
    order; and the table is the constant [tasks_rel] placed under the
    project root: nothing else enters it. *)
Theorem mapping_table file :
  keys (tasks file)
    = ["data_vocab"; "models_vocab"; "data _enronsent"; "models_enronsent"]
  ∧ NoDup (keys (tasks file))
  ∧ Forall two_dests (tasks file)
  ∧ layout (tasks file) = spec_layout (project_root file)
  ∧ String.get 4 "data _enronsent" = Some " "%char
  ∧ tasks file = rebase (project_root file) <$> tasks_rel.
Proof.
  unfold tasks. generalize (project_root file). intros root.
  split; [done|]. split; [cbn; by apply (bool_decide_unpack _)|].
  split; [by repeat constructor|]. split; [done|]. split; [done|].
  unfold rebase, joinpath. cbn. by rewrite <-!app_assoc.
Qed.

(** * The path resolver (lines 7 and 8) *)

Lemma parent_joinpath p s : parent (p / s) = p.
Proof.
  destruct p as [a l]. unfold parent, joinpath. simpl.
  by rewrite removelast_last.
Qed.

Lemma name_joinpath p s : name (p / s) = s.
Proof. unfold name, joinpath. simpl. apply last_last. Qed.

(** C6, as stated, fails for a script location given as a relative path:
    the code takes the parent of [__file__] as it is, calling neither
    [resolve()] nor [absolute()], so the project root (here the empty
    relative path, [Path(".")]) and the clone directory are relative. *)
Lemma relative_script_location :
  is_absolute ex_file_rel = false
  ∧ project_root ex_file_rel = mkPath false []
  ∧ is_absolute (project_root ex_file_rel) = false
  ∧ tmp_repo ex_file_rel = mkPath false ["tmp_hf_repo"]
  ∧ is_absolute (tmp_repo ex_file_rel) = false.
Proof. repeat split. Qed.

Lemma joinpath_parent_name p :
  parts p ≠ [] → parent p / name p = p.
Proof.
  destruct p as [a l]. unfold parent, joinpath, name. simpl. intros Hne.
  f_equal. symmetry. by apply app_removelast_last.
Qed.

(** C6, amended. The project root is the directory that holds the script:
    the script location is the entry of the project root with the script's
    name; it is absolute exactly when the script location is.  The clone
    directory is the entry "tmp_hf_repo" of the project root and is absolute
    exactly when the project root is.  Both are computed from the script
    location alone, and a run uses no other: whatever the remote and the
    filesystem, and however the run ends, every call it logs names the
    clone directory or a path below the project root. *)
Theorem path_resolver file :
  (parts file ≠ [] → project_root file / name file = file)
  ∧ is_absolute (project_root file) = is_absolute file
  ∧ parts (tmp_repo file) = parts (project_root file) ++ ["tmp_hf_repo"]
  ∧ is_absolute (tmp_repo file) = is_absolute file
  ∧ name (tmp_repo file) = "tmp_hf_repo"
  ∧ parent (tmp_repo file) = project_root file
  ∧ ∀ remote w, ∃ evs,
      log (main file remote w).1 = log w ++ evs
      ∧ Forall (λ e, Forall (below (project_root file)) (named e)) evs.
Proof.
  split; [apply joinpath_parent_name|]. repeat split; try done.
  - apply name_joinpath.
  - apply parent_joinpath.
  - intros remote w. apply main_logged.
    + repeat constructor; unfold tmp_repo; solve_below.
    + repeat constructor; unfold tmp_repo; solve_below.
    + unfold tasks, tmp_repo. generalize (project_root file). intros root.
      cbn. repeat constructor; solve_below.
Qed.

Lemma path_resolver_witness :
  project_root ex_file / "setup.py" = ex_file
  ∧ is_absolute (project_root ex_file) = true
  ∧ tmp_repo ex_file = mkPath true ["proj"; "tmp_hf_repo"]
  ∧ is_absolute (project_root ex_file_rel) = false.
Proof.
  destruct (path_resolver ex_file) as (Hs & Ha & _).
  destruct (path_resolver ex_file_rel) as (_ & Hr & _).
  split; [apply Hs; discriminate|]. split; [exact Ha|].
  split; [reflexivity|exact Hr].
Defined.

(** * The fetch step: a stale clone *)

(** C9. When [tmp_hf_repo] is a regular file, the run stops in [rmtree]
    with [NotADirectoryError], which is neither the fetch error nor the
    missing-source error; the filesystem is as before, and the only call
    made is that [rmtree]: nothing was cloned or copied. *)
Theorem stale_regular_file file remote w data :
  look w (parts (tmp_repo file)) = Some (File data) →
  main file remote w
    = (mkWorld (fs w) (log w ++ [EvRmtree (tmp_repo file)]),
       Raised NotADirectoryError)
  ∧ NotADirectoryError ≠ FetchError
  ∧ NotADirectoryError ≠ FileNotFoundError.
Proof.
  intros Hw. split; [|done]. rewrite main_run, fetch_run. cbv zeta.
  by rewrite Hw.
Qed.

Lemma stale_regular_file_witness :
  look ex_world_file (parts (tmp_repo ex_file)) = Some (File [xff])
  ∧ main ex_file (Some ex_remote) ex_world_file
    = (mkWorld (fs ex_world_file) [EvRmtree (tmp_repo ex_file)],
       Raised NotADirectoryError).
Proof.
  split; [reflexivity|].
  exact (proj1 (stale_regular_file ex_file (Some ex_remote) ex_world_file
                  [xff] eq_refl)).
Defined.

(** C2, as stated, fails when [tmp_hf_repo] exists as a regular file: it
    exists before the run, the fetch step raises, and afterwards the path
    still holds the old file, not the cloned content. *)
Lemma fetch_keeps_regular_file :
  is_Some (look ex_world_file (parts (tmp_repo ex_file)))
  ∧ (fetch ex_file (Some ex_remote) ex_world_file).2
    = Raised NotADirectoryError
  ∧ look (fetch ex_file (Some ex_remote) ex_world_file).1
      (parts (tmp_repo ex_file)) = Some (File [xff])
  ∧ look (fetch ex_file (Some ex_remote) ex_world_file).1
      (parts (tmp_repo ex_file)) ≠ Some (Dir ex_remote).
Proof.
  split; [by eexists|]. split; [reflexivity|]. split; [reflexivity|].
  intros H. vm_compute in H. discriminate H.
Qed.

(** C2, amended. When [tmp_hf_repo] exists as a directory and the clone can
    be made, the fetch step completes; it calls [rmtree] and then clones;
    after [rmtree] nothing is left at or below [tmp_hf_repo]; and after the
    clone [tmp_hf_repo] holds exactly the cloned tree, so no entry of the
    old directory survives. *)
Theorem fetch_replaces_directory file tree w old :
  look w (parts (tmp_repo file)) = Some (Dir old) →
  ∃ w1, fetch file (Some tree) w = (w1, Done ())
    ∧ log w1 = log w ++ [EvRmtree (tmp_repo file); EvClone (tmp_repo file)]
    ∧ (∀ q, look (rmtree (tmp_repo file) w).1 (parts (tmp_repo file) ++ q)
            = None)
    ∧ (∀ q, look w1 (parts (tmp_repo file) ++ q) = walk (Some (Dir tree)) q).
Proof.
  intros Hw. pose proof (tmp_repo_ne file) as Hne.
  pose proof (fetch_run file (Some tree) w) as Hrun. cbv zeta in Hrun.
  rewrite Hw in Hrun. eexists. split; [exact Hrun|].
  split; [done|]. split.
  - intros q. rewrite rmtree_run, Hw. unfold look. cbn [fst fs].
    rewrite (graft_root_Some _ _ _ Hne), walk_graft_under.
    + apply walk_None.
    + unfold look in Hw. by rewrite Hw.
  - by destruct (fetch_done _ _ _ _ Hrun) as (? & [= <-] & ?).
Qed.

Lemma fetch_replaces_directory_witness :
  look ex_world_stale (parts (tmp_repo ex_file))
    = Some (Dir {[ "old.bin" := File [xff] ]})
  ∧ ∃ w1, fetch ex_file (Some ex_remote) ex_world_stale = (w1, Done ())
      ∧ look w1 (parts (tmp_repo ex_file) ++ ["old.bin"]) = None.
Proof.
  split; [reflexivity|].
  destruct (fetch_replaces_directory ex_file ex_remote ex_world_stale
              {[ "old.bin" := File [xff] ]} eq_refl) as (w1 & Hf & _ & _ & Hq).
  exists w1. split; [exact Hf|]. rewrite Hq. reflexivity.
Defined.

(** * The clone directory during the copy phase *)

(** C8. After a fetch that completed, the copy phase, whether it completes
    or raises, leaves everything at and below [tmp_hf_repo] as the clone
    made it: the directory is still there and holds exactly the cloned
    tree.  Every [mkdir] and [copytree] of the copy phase writes at a path
    that diverges from [tmp_hf_repo]. *)
Theorem clone_left_in_place file remote w w1 :
  fetch file remote w = (w1, Done ()) →
  ∃ tree, remote = Some tree
    ∧ (∀ q, look (copy_all (tmp_repo file) (tasks file) w1).1
              (parts (tmp_repo file) ++ q)
            = look w1 (parts (tmp_repo file) ++ q))
    ∧ (∀ q, look (main file remote w).1 (parts (tmp_repo file) ++ q)
            = walk (Some (Dir tree)) q)
    ∧ ∃ evs, log (copy_all (tmp_repo file) (tasks file) w1).1 = log w1 ++ evs
        ∧ Forall (λ e, diverge (parts (written e)) (parts (tmp_repo file))
                       = true) evs.
Proof.
  intros Hf. destruct (fetch_done _ _ _ _ Hf) as (tree & -> & Htree).
  exists tree. split; [done|].
  assert (∀ q, look (copy_all (tmp_repo file) (tasks file) w1).1
                 (parts (tmp_repo file) ++ q)
               = look w1 (parts (tmp_repo file) ++ q)) as Hk.
  { intros q. apply copy_all_keeps_clone. }
  split; [done|]. split.
  - intros q. by rewrite main_run, Hf, Hk.
  - rewrite copy_all_steps. apply steps_log_invariant.
    unfold tasks, tmp_repo. generalize (project_root file). intros root.
    cbn.
    repeat first [ apply Forall_nil | apply Forall_cons; split | exact I ];
      cbn [written]; solve_diverge.
Qed.

Lemma clone_left_in_place_witness :
  fetch ex_file (Some ex_remote) ex_world_stale
    = ((fetch ex_file (Some ex_remote) ex_world_stale).1, Done ())
  ∧ look (main ex_file (Some ex_remote) ex_world_stale).1
      (parts (tmp_repo ex_file)) = Some (Dir ex_remote).
Proof.
  assert (fetch ex_file (Some ex_remote) ex_world_stale
          = ((fetch ex_file (Some ex_remote) ex_world_stale).1, Done ()))
    as Hf by (vm_compute; reflexivity).
  split; [exact Hf|].
  destruct (clone_left_in_place _ _ _ _ Hf) as (tree & [= <-] & _ & Hq & _).
  specialize (Hq []). rewrite app_nil_r in Hq. exact Hq.
Defined.

(** * A missing source sub-folder *)

(** C1. When the run reaches entry [i] of the table (the fetch and the
    entries before it have completed) and the source path of the entry,
    [tmp_hf_repo / key], is not an existing directory, the run raises
    [FileNotFoundError] in the very state in which it reached the entry:
    nothing is created or written for it, and every destination of this
    entry and of the later ones, with all below it, is as it was before the
    run. *)
Theorem missing_source_aborts file remote w w1 i key dests :
  tasks file !! i = Some (key, dests) →
  main_upto i file remote w = (w1, Done ()) →
  slot_is_dir (look w1 (parts (tmp_repo file / key))) = false →
  main file remote w = (w1, Raised FileNotFoundError)
  ∧ ∀ j key' dests' d q,
      i ≤ j → tasks file !! j = Some (key', dests') → d ∈ dests' →
      look w1 (parts (dest_of d) ++ q) = look w (parts (dest_of d) ++ q).
Proof.
  intros Hi Hupto Hmiss. unfold main_upto in Hupto. rewrite bind_run in Hupto.
  pose proof (λ q, fetch_frame file remote w q) as Hff.
  destruct (fetch file remote w) as [wf [[]|e]] eqn:Hf; [|done].
  cbn [fst] in Hff. split.
  - rewrite main_run, Hf, <-(take_drop_middle _ _ _ Hi).
    unfold copy_all in *. rewrite for_each_app, Hupto.
    cbn [for_each]. rewrite bind_run, copy_task_run.
    cbn [fst]. by rewrite Hmiss.
  - intros j key' dests' d q Hij Hj Hd.
    pose proof (later_dests_avoid _ _ _ _ _ _ Hij Hj Hd) as Hav.
    rewrite <-Hff.
    + replace w1 with (copy_all (tmp_repo file) (take i (tasks file)) wf).1
        by (by rewrite Hupto).
      by apply copy_all_frame.
    + apply diverge_app_r. eapply dest_diverges_tmp; [|done].
      by eapply list_elem_of_lookup_2.
Qed.

Lemma missing_source_aborts_witness :
  tasks ex_file !! 2
    = Some ("data _enronsent",
            [ (project_root ex_file / "ML" / "try2", "data");
              (project_root ex_file / "Evaluation" / "try2", "data") ])
  ∧ (main_upto 2 ex_file (Some ex_remote_nospace) ex_world).2 = Done ()
  ∧ slot_is_dir
      (look (main_upto 2 ex_file (Some ex_remote_nospace) ex_world).1
         (parts (tmp_repo ex_file / "data _enronsent"))) = false
  ∧ (main ex_file (Some ex_remote_nospace) ex_world).2
    = Raised FileNotFoundError
  ∧ look (main ex_file (Some ex_remote_nospace) ex_world).1
      ["proj"; "ML"; "try2"] = None.
Proof.
  assert (main_upto 2 ex_file (Some ex_remote_nospace) ex_world
          = ((main_upto 2 ex_file (Some ex_remote_nospace) ex_world).1, Done ()))
    as Hupto by (vm_compute; reflexivity).
  assert (slot_is_dir
            (look (main_upto 2 ex_file (Some ex_remote_nospace) ex_world).1
               (parts (tmp_repo ex_file / "data _enronsent"))) = false)
    as Hmiss by (vm_compute; reflexivity).
  destruct (missing_source_aborts ex_file (Some ex_remote_nospace) ex_world _ 2
              "data _enronsent" _ eq_refl Hupto Hmiss) as [Hmain _].
  split; [reflexivity|]. split; [by rewrite Hupto|]. split; [exact Hmiss|].
  rewrite Hmain. split; [reflexivity|]. vm_compute. reflexivity.
Defined.

(** C10. The copies are made in the order of the table, key by key and,
    within a key, destination by destination.  A run that completes has
    made the [copytree] calls of the whole table, in that order.  A run
    that raises [FileNotFoundError] has stopped at the first key that is
    not a directory of the clone, and has made the [copytree] calls of the
    keys before it, in that order, and no other: they are a function of
    that key's position. *)
Theorem copy_order file remote w :
  let res := main file remote w in
  let tmp := tmp_repo file in
  (res.2 = Done () →
     copies (log res.1) = copies (log w) ++ pairs tmp (tasks file))
  ∧ (res.2 = Raised FileNotFoundError →
     ∃ i key dests tree,
       remote = Some tree
       ∧ tasks file !! i = Some (key, dests)
       ∧ slot_is_dir (tree !! key) = false
       ∧ (∀ j key' dests', j < i → tasks file !! j = Some (key', dests') →
            slot_is_dir (tree !! key') = true)
       ∧ copies (log res.1)
         = copies (log w) ++ pairs tmp (take i (tasks file))).
Proof.
  intros res tmp. subst res tmp. rewrite main_run.
  pose proof (fetch_not_missing file remote w) as Hnm.
  pose proof (fetch_copies file remote w) as Hcp.
  destruct (fetch file remote w) as [w1 [[]|e]] eqn:Hf; cbn [fst snd] in *.
  2: { split; [done|]. congruence. }
  destruct (fetch_done _ _ _ _ Hf) as (tree & -> & Htree).
  destruct (copy_all_log (tmp_repo file) (tasks file) w1
              (tasks_avoid_tmp file)) as [Hdone Hraise].
  split.
  - intros Hd. by rewrite (Hdone Hd), copies_app, copies_events, Hcp.
  - intros Hr. destruct (Hraise Hr) as (i & [key dests] & Hi & Hm & He & Hl).
    exists i, key, dests, tree. split; [done|]. split; [done|].
    cbn [parts joinpath fst] in Hm.
    rewrite Htree in Hm. split; [done|]. split.
    + intros j key' dests' Hj Hjt. specialize (He j _ Hj Hjt).
      cbn [parts joinpath fst] in He. by rewrite Htree in He.
    + by rewrite Hl, copies_app, copies_events, Hcp.
Qed.

Lemma copy_order_witness :
  (main ex_file (Some ex_remote) ex_world).2 = Done ()
  ∧ copies (log (main ex_file (Some ex_remote) ex_world).1)
    = pairs (tmp_repo ex_file) (tasks ex_file)
  ∧ (main ex_file (Some ex_remote_nospace) ex_world).2
    = Raised FileNotFoundError
  ∧ ∃ i key dests,
      tasks ex_file !! i = Some (key, dests)
      ∧ slot_is_dir (ex_remote_nospace !! key) = false
      ∧ copies (log (main ex_file (Some ex_remote_nospace) ex_world).1)
        = pairs (tmp_repo ex_file) (take i (tasks ex_file)).
Proof.
  assert ((main ex_file (Some ex_remote) ex_world).2 = Done ()) as Hd
    by (vm_compute; reflexivity).
  assert ((main ex_file (Some ex_remote_nospace) ex_world).2
          = Raised FileNotFoundError) as Hr by (vm_compute; reflexivity).
  split; [exact Hd|]. split.
  - exact (proj1 (copy_order ex_file (Some ex_remote) ex_world) Hd).
  - split; [exact Hr|].
    destruct (proj2 (copy_order ex_file (Some ex_remote_nospace) ex_world) Hr)
      as (i & key & dests & tree & [= <-] & Hi & Hm & _ & Hl).
    exists i, key, dests. split; [exact Hi|]. split; [exact Hm|]. exact Hl.
Defined.

(** * What a destination holds after the run *)

Lemma copy_entry_Dir name es d0 :
  copy_entry name (Dir es) (Some (Dir d0))
  = (Dir (copy_loop copy_entry es d0).1, (copy_loop copy_entry es d0).2).
Proof. done. Qed.

(** C3, as stated, fails when a destination already holds a directory where
    the source has a regular file: the run completes, the source has the
    file [f.txt], and the destination has a directory there, with the file
    inside it. *)
Lemma copy_into_existing_directory :
  (main ex_file (Some ex_remote) ex_world_conflict).2 = Done ()
  ∧ look (main ex_file (Some ex_remote) ex_world_conflict).1
      (parts (tmp_repo ex_file / "data_vocab") ++ ["f.txt"])
    = Some (File [x01])
  ∧ look (main ex_file (Some ex_remote) ex_world_conflict).1
      ["proj"; "Evaluation"; "try1"; "data"; "f.txt"]
    = Some (Dir {[ "f.txt" := File [x01] ]})
  ∧ look (main ex_file (Some ex_remote) ex_world_conflict).1
      ["proj"; "Evaluation"; "try1"; "data"; "f.txt"]
    ≠ Some (File [x01]).
Proof.
  assert (look (main ex_file (Some ex_remote) ex_world_conflict).1
            ["proj"; "Evaluation"; "try1"; "data"; "f.txt"]
          = Some (Dir {[ "f.txt" := File [x01] ]})) as H
    by (vm_compute; reflexivity).
  split; [vm_compute; reflexivity|]. split; [vm_compute; reflexivity|].
  split; [exact H|]. by rewrite H.
Qed.

(** C3, amended. After a run that completed, for every key of the table and
    every destination listed for it: the destination is a directory, and so
    is everything above it; every directory of the cloned sub-folder, empty
    or not, is a directory of the destination; every regular file of the
    cloned sub-folder is in the destination at the same relative path with
    the same bytes, provided the destination held no directory at that path
    before the run; and where it held one, the directory is still there and
    the file, with its bytes, is inside it under its own name. *)
Theorem copy_superset file remote w w' key dests d :
  main file remote w = (w', Done ()) →
  (key, dests) ∈ tasks file → d ∈ dests →
  let D := parts (dest_of d) in
  let S := parts (tmp_repo file / key) in
  slot_is_dir (look w' D) = true
  ∧ (∀ k, slot_is_dir (look w' (take k D)) = true)
  ∧ (∀ q e, look w' (S ++ q) = Some (Dir e) →
            slot_is_dir (look w' (D ++ q)) = true)
  ∧ (∀ q data, look w' (S ++ q) = Some (File data) →
               slot_is_dir (look w (D ++ q)) = false →
               look w' (D ++ q) = Some (File data))
  ∧ (∀ p n data, look w' (S ++ p ++ [n]) = Some (File data) →
                 slot_is_dir (look w (D ++ p ++ [n])) = true →
                 slot_is_dir (look w' (D ++ p ++ [n])) = true
                 ∧ look w' (D ++ p ++ [n; n]) = Some (File data)).
Proof.
  intros Hmain Hk Hd D S.
  assert (∃ tree, remote = Some tree
            ∧ ∀ q, look w' (parts (tmp_repo file) ++ q)
                   = walk (Some (Dir tree)) q) as (tree & -> & Hclone).
  { rewrite main_run in Hmain.
    destruct (fetch file remote w) as [w1 [[]|e]] eqn:Hf; [|done].
    destruct (fetch_done _ _ _ _ Hf) as (tree & -> & Htree).
    exists tree. split; [done|]. intros q.
    by rewrite <-Htree, <-(copy_all_keeps_clone file w1 q), Hmain. }
  assert (∀ q, look w' (S ++ q) = walk (tree !! key) q) as HS.
  { intros q. subst S. cbn [parts joinpath]. by rewrite <-app_assoc, Hclone. }
  destruct (main_at_dest file tree w key dests d Hk Hd)
    as [[Hr _]|(es & Hes & Hq & Hclean)]; rewrite Hmain in *; [done|].
  cbn [fst snd] in *. fold D in Hq, Hclean. specialize (Hclean eq_refl).
  assert (∀ b q, walk (Some (Dir (slot_entries (look w D)))) (b :: q)
                 = look w (D ++ b :: q)) as Hold.
  { intros b q. rewrite walk_slot_entries. unfold look. by rewrite walk_app. }
  set (d0 := slot_entries (look w D)) in *.
  assert (look w' D = Some (Dir (copy_loop copy_entry es d0).1)) as HD.
  { by rewrite <-(app_nil_r D), Hq. }
  split; [by rewrite HD|]. split; [intros k; by eapply walk_prefix_dir|].
  split; [|split].
  - intros q e. rewrite HS, Hes, Hq. intros Hsrc.
    pose proof (copy_entry_dir q EmptyString (Dir es) (Some (Dir d0)) e) as Hdir.
    rewrite copy_entry_Dir in Hdir. by apply Hdir.
  - intros q data. rewrite HS, Hes, Hq. destruct q as [|b q]; [done|].
    intros Hsrc Hnd.
    pose proof (copy_entry_file (b :: q) EmptyString (Dir es) (Some (Dir d0))
                  data) as Hfile.
    rewrite copy_entry_Dir in Hfile. apply Hfile; [done|done|].
    by rewrite Hold.
  - intros p n data. rewrite HS, Hes. intros Hsrc Hdir.
    pose proof (copy_entry_file_into p n EmptyString (Dir es) (Some (Dir d0))
                  data) as Hinto.
    rewrite copy_entry_Dir in Hinto. cbn [fst snd] in Hinto.
    replace (D ++ p ++ [n; n]) with (D ++ (p ++ [n; n])) by done.
    rewrite !Hq. apply Hinto; [done|done|].
    destruct p; cbn [app] in *; by rewrite Hold.
Qed.

Lemma copy_superset_witness :
  main ex_file (Some ex_remote_two) ex_world_mixed
    = ((main ex_file (Some ex_remote_two) ex_world_mixed).1, Done ())
  ∧ slot_is_dir (look ex_world_mixed
                   ["proj"; "Evaluation"; "try1"; "data"; "f.txt"]) = true
  ∧ look (main ex_file (Some ex_remote_two) ex_world_mixed).1
      ["proj"; "Evaluation"; "try1"; "data"; "g.txt"] = Some (File [x05])
  ∧ look (main ex_file (Some ex_remote_two) ex_world_mixed).1
      ["proj"; "Evaluation"; "try1"; "data"; "f.txt"; "f.txt"]
    = Some (File [x01])
  ∧ slot_is_dir (look (main ex_file (Some ex_remote_two) ex_world_mixed).1
                   ["proj"; "Evaluation"; "try1"]) = true.
Proof.
  assert (main ex_file (Some ex_remote_two) ex_world_mixed
          = ((main ex_file (Some ex_remote_two) ex_world_mixed).1, Done ()))
    as Hmain by (vm_compute; reflexivity).
  split; [exact Hmain|]. split; [reflexivity|].
  destruct (copy_superset ex_file (Some ex_remote_two) ex_world_mixed _
              "data_vocab"
              [ (project_root ex_file / "Evaluation" / "try1", "data");
                (project_root ex_file / "ML" / "try1", "data") ]
              (project_root ex_file / "Evaluation" / "try1", "data") Hmain)
    as (_ & Hup & _ & Hfiles & Hinto).
  - apply list_elem_of_here.
  - apply list_elem_of_here.
  - split; [|split].
    + apply (Hfiles ["g.txt"]); vm_compute; reflexivity.
    + apply (Hinto [] "f.txt"); vm_compute; reflexivity.
    + exact (Hup 3).
Defined.

(** C4, as stated, fails in the same situation.  The destination
    [ML/try2/models] holds the file [f.txt/f.txt]; the source sub-folder
    has the regular file [f.txt] and therefore no path [f.txt/f.txt]; the
    run completes and has overwritten [f.txt/f.txt] with the bytes of the
    source's [f.txt], while [f.txt] itself is still the old directory. *)
Lemma copy_overwrites_unrelated_file :
  look ex_world_nested ["proj"; "ML"; "try2"; "models"; "f.txt"; "f.txt"]
    = Some (File [xff])
  ∧ walk (ex_remote !! "models_enronsent") ["f.txt"; "f.txt"] = None
  ∧ walk (ex_remote !! "models_enronsent") ["f.txt"] = Some (File [x04])
  ∧ (main ex_file (Some ex_remote) ex_world_nested).2 = Done ()
  ∧ look (main ex_file (Some ex_remote) ex_world_nested).1
      ["proj"; "ML"; "try2"; "models"; "f.txt"; "f.txt"]
    = Some (File [x04])
  ∧ slot_is_dir (look (main ex_file (Some ex_remote) ex_world_nested).1
                   ["proj"; "ML"; "try2"; "models"; "f.txt"]) = true.
Proof. repeat split; vm_compute; reflexivity. Qed.

(** C4, amended. For every destination of the table: whatever sits in the
    destination at a relative path the source sub-folder does not have is,
    after the run and however it ended, exactly as before, unless the path
    is [n/n] below a place where the source sub-folder has the regular file
    [n] and the destination held a directory; and when the run completed,
    every regular file of the source sub-folder is in the destination with
    the source's bytes, at every path where the destination held no
    directory. *)
Theorem copy_merges file tree w key dests d :
  (key, dests) ∈ tasks file → d ∈ dests →
  let res := main file (Some tree) w in
  let D := parts (dest_of d) in
  (∀ q, walk (tree !! key) q = None →
        (∀ p n data, q = p ++ [n; n] →
           walk (tree !! key) (p ++ [n]) = Some (File data) →
           slot_is_dir (look w (D ++ p ++ [n])) = false) →
        look res.1 (D ++ q) = look w (D ++ q))
  ∧ (res.2 = Done () →
     ∀ q data, walk (tree !! key) q = Some (File data) →
               slot_is_dir (look w (D ++ q)) = false →
               look res.1 (D ++ q) = Some (File data)).
Proof.
  intros Hk Hd res D. subst res.
  destruct (main_at_dest file tree w key dests d Hk Hd)
    as [[Hr Hq]|(es & Hes & Hq & Hclean)]; fold D in Hq.
  { split; [intros q _ _; apply Hq|done]. }
  fold D in Hclean. rewrite Hes.
  assert (∀ b q, walk (Some (Dir (slot_entries (look w D)))) (b :: q)
                 = look w (D ++ b :: q)) as Hold.
  { intros b q. rewrite walk_slot_entries. unfold look. by rewrite walk_app. }
  set (d0 := slot_entries (look w D)) in *. split.
  - intros q Hnone Hno. destruct q as [|b q]; [done|]. rewrite Hq, <-Hold.
    pose proof (copy_entry_frame (b :: q) EmptyString (Dir es) (Some (Dir d0))
                  Hnone) as Hframe.
    rewrite copy_entry_Dir in Hframe. apply Hframe.
    apply not_true_is_false.
    intros [(data & ? & _)|(p & n & data & Hp & Hw & Hs)]%redirect_spec;
      [done|].
    specialize (Hno p n data Hp Hw).
    destruct p; cbn [app] in *; rewrite Hold in Hs; congruence.
  - intros Hdone q data Hsrc Hnd. destruct q as [|b q]; [done|]. rewrite Hq.
    pose proof (copy_entry_file (b :: q) EmptyString (Dir es) (Some (Dir d0))
                  data) as Hfile.
    rewrite copy_entry_Dir in Hfile. apply Hfile; [by apply Hclean|done|].
    by rewrite Hold.
Qed.

Lemma copy_merges_witness :
  slot_is_dir (look ex_world_mixed
                 ["proj"; "Evaluation"; "try1"; "data"; "f.txt"]) = true
  ∧ (main ex_file (Some ex_remote_two) ex_world_mixed).2 = Done ()
  ∧ look (main ex_file (Some ex_remote_two) ex_world_mixed).1
      ["proj"; "Evaluation"; "try1"; "data"; "keep.txt"] = Some (File [xaa])
  ∧ look (main ex_file (Some ex_remote_two) ex_world_mixed).1
      ["proj"; "Evaluation"; "try1"; "data"; "f.txt"; "old.txt"]
    = Some (File [xee])
  ∧ look (main ex_file (Some ex_remote_two) ex_world_mixed).1
      ["proj"; "Evaluation"; "try1"; "data"; "g.txt"] = Some (File [x05]).
Proof.
  assert ((main ex_file (Some ex_remote_two) ex_world_mixed).2 = Done ())
    as Hdone by (vm_compute; reflexivity).
  split; [reflexivity|]. split; [exact Hdone|].
  destruct (copy_merges ex_file ex_remote_two ex_world_mixed
              "data_vocab"
              [ (project_root ex_file / "Evaluation" / "try1", "data");
                (project_root ex_file / "ML" / "try1", "data") ]
              (project_root ex_file / "Evaluation" / "try1", "data"))
    as [Hframe Hfiles].
  - apply list_elem_of_here.
  - apply list_elem_of_here.
  - split; [|split].
    + etransitivity; [apply (Hframe ["keep.txt"])|vm_compute; reflexivity].
      * vm_compute. reflexivity.
      * intros [|? [|? ?]] n data Hq; discriminate Hq.
    + etransitivity;
        [apply (Hframe ["f.txt"; "old.txt"])|vm_compute; reflexivity].
      * vm_compute. reflexivity.
      * intros [|? [|? [|? ?]]] n data Hq; try discriminate Hq.
        injection Hq as Hn1 Hn2. rewrite <-Hn1 in Hn2. discriminate Hn2.
    + apply (Hfiles Hdone ["g.txt"]); vm_compute; reflexivity.
Defined.

(** * Running twice *)

(** A destination that already holds the result of the copy loop: copying
    again changes nothing and ends as the first copy did. *)
Lemma copy_dest_noop src d w es d0 :
  look w (parts src) = Some (Dir es) →
  look w (parts (dest_of d)) = Some (Dir (copy_loop copy_entry es d0).1) →
  fs (copy_dest src d w).1 = fs w
  ∧ (copy_dest src d w).2
    = if (copy_loop copy_entry es d0).2 then Raised ShutilError else Done ().
Proof.
  intros Hs HD. pose proof (parts_joinpath_ne d.1 d.2) as Hne.
  fold (dest_of d) in Hne. unfold look in *.
  rewrite copy_dest_run, (makedirs_id _ _ _ HD).
  rewrite (copytree_run _ _ _ _ (makedirs_id _ _ _ HD)). cbv zeta.
  rewrite Hs, HD. cbn [slot_entries].
  assert (copy_loop copy_entry es (copy_loop copy_entry es d0).1
          = copy_loop copy_entry es d0) as ->.
  { apply copy_loop_idem. intros k c s _. apply copy_entry_idem. }
  split; [|done]. cbn [fst fs]. apply (inj Some).
  by rewrite (graft_root_Some _ _ _ Hne), graft_id.
Qed.

(** What a copy step leaves behind, case by case. *)
Lemma copy_dest_cases src d w :
  diverge (parts (dest_of d)) (parts src) = true →
  (∃ e, (copy_dest src d w).2 = Raised e
        ∧ ∀ w', fs w' = fs (copy_dest src d w).1 →
                fs (copy_dest src d w').1 = fs w'
                ∧ (copy_dest src d w').2 = Raised e)
  ∨ (∃ es d0,
       look (copy_dest src d w).1 (parts src) = Some (Dir es)
       ∧ look (copy_dest src d w).1 (parts (dest_of d))
         = Some (Dir (copy_loop copy_entry es d0).1)
       ∧ (copy_dest src d w).2
         = if (copy_loop copy_entry es d0).2
           then Raised ShutilError else Done ()).
Proof.
  intros Hd. pose proof (parts_joinpath_ne d.1 d.2) as Hne.
  fold (dest_of d) in Hne. rewrite copy_dest_run.
  destruct (makedirs _ _) as [e|n] eqn:Hm.
  { left. exists e. split; [done|]. intros w' Hfs. cbn [fst fs] in Hfs.
    by rewrite copy_dest_run, Hfs, Hm. }
  rewrite (copytree_run _ _ _ _ Hm). cbv zeta.
  destruct (walk (Some n) (parts src)) as [[x|es]|] eqn:Hsrc.
  - left. exists NotADirectoryError. split; [done|]. intros w' Hfs.
    cbn [fst fs] in Hfs. rewrite copy_dest_run, Hfs, (makedirs_again _ _ _ Hm).
    assert (makedirs (parts (dest_of d)) (Some (fs w')) = inr n) as Hm'
      by (by rewrite Hfs, (makedirs_again _ _ _ Hm)).
    by rewrite (copytree_run _ _ _ _ Hm'), Hsrc.
  - right. exists es, (slot_entries (walk (Some n) (parts (dest_of d)))).
    unfold look. cbn [fst snd fs]. rewrite (graft_root_Some _ _ _ Hne).
    rewrite walk_graft_diverge by done. split; [done|]. split; [|done].
    pose proof (walk_graft_under (parts (dest_of d)) [] (Some (Dir
      (copy_loop copy_entry es
         (slot_entries (walk (Some n) (parts (dest_of d))))).1)) (Some n))
      as Hu.
    rewrite app_nil_r in Hu. apply Hu.
    pose proof (makedirs_walk _ [] _ _ Hm) as Hn. rewrite app_nil_r in Hn.
    by rewrite Hn.
  - left. exists FileNotFoundError. split; [done|]. intros w' Hfs.
    cbn [fst fs] in Hfs. rewrite copy_dest_run, Hfs, (makedirs_again _ _ _ Hm).
    assert (makedirs (parts (dest_of d)) (Some (fs w')) = inr n) as Hm'
      by (by rewrite Hfs, (makedirs_again _ _ _ Hm)).
    by rewrite (copytree_run _ _ _ _ Hm'), Hsrc.
Qed.

(** A step run again, on a filesystem that agrees with the one it left on
    the paths it depends on, changes nothing and ends as before. *)
Lemma exec_again s w w' :
  step_ok s →
  (fs w' = fs (exec s w).1
   ∨ ((exec s w).2 = Done ()
      ∧ Forall (λ p, look w' p = look (exec s w).1 p) (reads s))) →
  fs (exec s w').1 = fs w' ∧ (exec s w').2 = (exec s w).2.
Proof.
  intros Hok Hag.
  assert (Forall (λ p, look w' p = look (exec s w).1 p) (reads s)) as Hp.
  { destruct Hag as [Hfs|[_ Hp]]; [|done].
    apply Forall_forall. intros p _. unfold look. by rewrite Hfs. }
  destruct s as [src|src d].
  - rewrite !exec_check_fs in *. split; [done|].
    apply Forall_cons in Hp as [Hp _].
    cbn [exec]. unfold is_dir. run. rewrite Hp.
    by destruct (slot_is_dir _).
  - cbn [exec reads step_ok] in *.
    apply Forall_cons in Hp as [Hsrc [HD _]%Forall_cons].
    destruct (copy_dest_cases src d w Hok)
      as [(e & He & Hsame)|(es & d0 & Hs1 & HD1 & Hr)].
    + destruct Hag as [Hfs|[Hdone _]]; [|congruence].
      rewrite He. by apply Hsame.
    + rewrite Hr. apply copy_dest_noop; congruence.
Qed.

Lemma steps_again l :
  separated l →
  ∀ w w', fs w' = fs (for_each l exec w).1 →
    fs (for_each l exec w').1 = fs w'
    ∧ (for_each l exec w').2 = (for_each l exec w).2.
Proof.
  induction l as [|s l IH]; intros Hsep w w' Hfs; [done|].
  destruct Hsep as (Hok & Hreads & Hsep). cbn [for_each] in *.
  rewrite !bind_run in *.
  pose proof (exec_again s w w' Hok) as Hstep.
  destruct (exec s w) as [w1 [[]|e]] eqn:E; cbn [fst snd] in *.
  - destruct Hstep as [Hfs' Hdone].
    { right. split; [done|]. apply Forall_forall. intros p Hp.
      eapply Forall_forall in Hreads; [|done].
      pose proof (steps_frame l p [] w1 Hreads) as Hf.
      rewrite app_nil_r in Hf. unfold look in *. by rewrite Hfs. }
    destruct (exec s w') as [w'' r'']; cbn [fst snd] in *. subst r''.
    rewrite <-Hfs'. apply IH; [done|]. by rewrite Hfs'.
  - destruct Hstep as [Hfs' Hr]; [by left|].
    destruct (exec s w') as [w'' r'']; cbn [fst snd] in *. by subst r''.
Qed.

Lemma tasks_separated file :
  separated (steps (tmp_repo file) (tasks file)).
Proof.
  unfold tasks, tmp_repo. generalize (project_root file). intros root.
  cbn [steps steps_of_task fmap list_fmap concat app fst snd separated reads
       step_ok].
  repeat first
    [ exact I | apply Forall_nil | apply conj | apply Forall_cons ];
    unfold avoids; solve_diverge.
Qed.

(** A fetch that raised, run again on the filesystem it left, raises the
    same error and changes nothing. *)
Lemma fetch_again_raised file tree w w' e :
  (fetch file (Some tree) w).2 = Raised e →
  fs w' = fs (fetch file (Some tree) w).1 →
  fs (fetch file (Some tree) w').1 = fs w'
  ∧ (fetch file (Some tree) w').2 = Raised e.
Proof.
  rewrite !fetch_run. cbv zeta. unfold look.
  destruct (walk (Some (fs w)) _) as [[x|old]|] eqn:Hw; cbn [fst snd fs].
  - intros [= <-] Hfs. by rewrite Hfs, Hw.
  - done.
  - destruct (makedirs _ (Some (fs w))) as [e'|n] eqn:Hm; [|done].
    cbn [fst snd fs]. intros [= <-] Hfs. by rewrite Hfs, Hw, Hm.
Qed.

(** C7. Run the tool, then run it again on the filesystem the first run
    left, against the same remote tree.  The second run ends as the first
    did and leaves the whole filesystem as the first run left it; in
    particular every destination of the table holds, at every relative
    path, the same files with the same bytes after both runs. *)
Theorem run_twice file tree w :
  let first := main file (Some tree) w in
  let second := main file (Some tree) first.1 in
  fs second.1 = fs first.1
  ∧ second.2 = first.2
  ∧ ∀ key dests d q,
      (key, dests) ∈ tasks file → d ∈ dests →
      look second.1 (parts (dest_of d) ++ q)
      = look first.1 (parts (dest_of d) ++ q).
Proof.
  intros first second.
  assert (fs second.1 = fs first.1 ∧ second.2 = first.2) as [Hfs Hr].
  2: { repeat split; try done. intros. unfold look. by rewrite Hfs. }
  subst second first. pose proof (tmp_repo_ne file) as Hne.
  rewrite (main_run file (Some tree) w).
  destruct (fetch file (Some tree) w) as [w1 [[]|e]] eqn:Hf.
  - pose proof (copy_all_keeps_clone file w1) as Hkept.
    destruct (fetch_done _ _ _ _ Hf) as (? & [= <-] & Htree).
    set (w2 := (copy_all (tmp_repo file) (tasks file) w1).1) in *.
    assert (look w2 (parts (tmp_repo file)) = Some (Dir tree)) as Hclone.
    { specialize (Hkept []). specialize (Htree []).
      rewrite app_nil_r in *. by rewrite Hkept, Htree. }
    rewrite main_run, fetch_run. cbv zeta. cbn [fst]. rewrite Hclone.
    set (w3 := mkWorld (graft_root _ _ _) _).
    assert (fs w3 = fs w2) as H3.
    { unfold w3. cbn [fs]. apply (inj Some).
      rewrite (graft_root_Some _ _ _ Hne). by apply graft_id. }
    destruct (steps_again _ (tasks_separated file) w1 w3) as [Hfs Hr].
    { rewrite H3. unfold w2. by rewrite copy_all_steps. }
    rewrite <-!copy_all_steps in Hfs. rewrite <-!copy_all_steps in Hr.
    cbn [snd]. by rewrite Hfs, Hr.
  - cbn [fst snd]. rewrite main_run.
    destruct (fetch_again_raised file tree w w1 e) as [Hfs Hr];
      [by rewrite Hf..|].
    destruct (fetch file (Some tree) w1) as [w1' r']; cbn [fst snd] in *.
    by subst r'.
Qed.

(** * Further properties of the fetch step *)

(** [makedirs] succeeds exactly when no regular file is at or above the
    path. *)
Lemma makedirs_clear p slot :
  clear p slot = true ↔ ∃ n, makedirs p slot = inr n.
Proof.
  revert slot; induction p as [|c p IH]; intros slot.
  - destruct slot as [[x|es]|]; simpl; split; try done; eauto.
    by intros [? ?].
  - destruct slot as [[x|es]|]; simpl.
    + split; [done|by intros [? ?]].
    + rewrite IH. split.
      * intros [n' ->]. eauto.
      * destruct (makedirs p (es !! c)) as [e|n']; [by intros [? ?]|eauto].
    + split; [intros _|done].
      destruct (proj1 (IH None)) as [n' ->]; [by destruct p|eauto].
Qed.

Lemma clear_not_file p slot data :
  clear p slot = true → walk slot p ≠ Some (File data).
Proof.
  revert slot; induction p as [|c p IH]; intros slot.
  - by destruct slot as [[x|es]|].
  - destruct slot as [[x|es]|]; simpl; try done. apply IH.
Qed.

(** With no regular file at or above [tmp_hf_repo] the fetch step of a
    clone that can be made completes, and leaves the cloned tree there. *)
Lemma fetch_clear_done file tree w :
  clear (parts (tmp_repo file)) (Some (fs w)) = true →
  ∃ w1, fetch file (Some tree) w = (w1, Done ())
    ∧ ∀ q, look w1 (parts (tmp_repo file) ++ q) = walk (Some (Dir tree)) q.
Proof.
  intros Hclear.
  assert (∃ w1, fetch file (Some tree) w = (w1, Done ())) as [w1 Hf].
  { rewrite fetch_run. cbv zeta.
    destruct (look w (parts (tmp_repo file))) as [[x|old]|] eqn:Hw.
    - by destruct (clear_not_file _ _ x Hclear).
    - by eexists.
    - destruct (proj1 (makedirs_clear _ _) Hclear) as [n ->]. by eexists. }
  exists w1. split; [done|].
  by destruct (fetch_done _ _ _ _ Hf) as (? & [= <-] & ?).
Qed.

(** X1. When no regular file is at or above [tmp_hf_repo] and the clone can
    be made, the fetch step completes and [tmp_hf_repo] holds exactly the
    cloned tree; when [tmp_hf_repo] did not exist, [rmtree] is not called:
    the only call is the clone, which creates the directory. *)
Theorem fetch_completes file tree w :
  clear (parts (tmp_repo file)) (Some (fs w)) = true →
  ∃ w1, fetch file (Some tree) w = (w1, Done ())
    ∧ (∀ q, look w1 (parts (tmp_repo file) ++ q) = walk (Some (Dir tree)) q)
    ∧ (look w (parts (tmp_repo file)) = None →
       log w1 = log w ++ [EvClone (tmp_repo file)]).
Proof.
  intros Hclear.
  assert (∃ w1, fetch file (Some tree) w = (w1, Done ())
            ∧ (look w (parts (tmp_repo file)) = None →
               log w1 = log w ++ [EvClone (tmp_repo file)]))
    as (w1 & Hf & Hlog).
  { rewrite fetch_run. cbv zeta.
    destruct (look w (parts (tmp_repo file))) as [[x|old]|] eqn:Hw.
    - by destruct (clear_not_file _ _ x Hclear).
    - eexists. by split.
    - destruct (proj1 (makedirs_clear _ _) Hclear) as [n ->].
      eexists. by split. }
  exists w1. split; [done|]. split; [|done].
  by destruct (fetch_done _ _ _ _ Hf) as (? & [= <-] & ?).
Qed.

Lemma fetch_completes_witness :
  clear (parts (tmp_repo ex_file)) (Some (fs ex_world)) = true
  ∧ look ex_world (parts (tmp_repo ex_file)) = None
  ∧ ∃ w1, fetch ex_file (Some ex_remote) ex_world = (w1, Done ())
      ∧ look w1 (parts (tmp_repo ex_file)) = Some (Dir ex_remote)
      ∧ log w1 = [EvClone (tmp_repo ex_file)].
Proof.
  split; [reflexivity|]. split; [reflexivity|].
  destruct (fetch_completes ex_file ex_remote ex_world eq_refl)
    as (w1 & Hf & Hq & Hlog).
  exists w1. split; [exact Hf|]. split.
  - specialize (Hq []). rewrite app_nil_r in Hq. exact Hq.
  - exact (Hlog eq_refl).
Defined.

(** X2. When the clone cannot be made and no regular file is at or above
    [tmp_hf_repo], the run raises the fetch error; no [copytree] has been
    called, and every path that diverges from [tmp_hf_repo], in particular
    every destination, is as before the run. *)
Theorem clone_failure_stops file w :
  clear (parts (tmp_repo file)) (Some (fs w)) = true →
  (main file None w).2 = Raised FetchError
  ∧ copies (log (main file None w).1) = copies (log w)
  ∧ ∀ q, diverge (parts (tmp_repo file)) q = true →
         look (main file None w).1 q = look w q.
Proof.
  intros Hclear.
  assert ((fetch file None w).2 = Raised FetchError) as Hr.
  { rewrite fetch_run. cbv zeta.
    destruct (look w (parts (tmp_repo file))) as [[x|old]|] eqn:Hw.
    - by destruct (clear_not_file _ _ x Hclear).
    - done.
    - by destruct (proj1 (makedirs_clear _ _) Hclear) as [n ->]. }
  pose proof (fetch_copies file None w) as Hc.
  pose proof (fetch_frame file None w) as Hf.
  rewrite main_run.
  destruct (fetch file None w) as [w1 [[]|e]]; cbn [fst snd] in *; [done|].
  by simplify_eq.
Qed.

Lemma clone_failure_stops_witness :
  clear (parts (tmp_repo ex_file)) (Some (fs ex_world_stale)) = true
  ∧ (main ex_file None ex_world_stale).2 = Raised FetchError
  ∧ look (main ex_file None ex_world_stale).1 ["proj"; "ML"] = None.
Proof.
  split; [reflexivity|].
  destruct (clone_failure_stops ex_file ex_world_stale eq_refl)
    as (Hr & _ & Hf).
  split; [exact Hr|]. rewrite Hf; reflexivity.
Defined.

(** * What the run never touches *)

(** X3. Whatever the remote and however the run ends, a path that diverges
    from [tmp_hf_repo] and from every destination of the table holds after
    the run what it held before. *)
Theorem run_frame file remote w q :
  diverge (parts (tmp_repo file)) q = true →
  dests_avoid q (tasks file) →
  look (main file remote w).1 q = look w q.
Proof.
  intros Ht Hd. rewrite main_run.
  pose proof (fetch_frame file remote w q Ht) as Hf.
  destruct (fetch file remote w) as [w1 [[]|e]]; cbn [fst] in *; [|done].
  rewrite <-Hf. pose proof (copy_all_frame (tmp_repo file) _ q [] w1 Hd) as Hc.
  by rewrite app_nil_r in Hc.
Qed.

Lemma run_frame_witness :
  diverge (parts (tmp_repo ex_file)) ["proj"; "setup.py"] = true
  ∧ dests_avoid ["proj"; "setup.py"] (tasks ex_file)
  ∧ look (main ex_file (Some ex_remote) ex_world_merge).1 ["proj"; "setup.py"]
    = Some (File []).
Proof.
  assert (dests_avoid ["proj"; "setup.py"] (tasks ex_file)) as Hd.
  { repeat first [ apply Forall_nil | apply Forall_cons; split ];
      reflexivity. }
  split; [reflexivity|]. split; [exact Hd|].
  rewrite (run_frame ex_file (Some ex_remote) ex_world_merge
             ["proj"; "setup.py"] eq_refl Hd).
  reflexivity.
Defined.

(** * The copies made by a run that raises *)

Lemma copy_dest_logged_done src d w :
  (copy_dest src d w).2 = Done () →
  log (copy_dest src d w).1 = log w ++ dest_events src d.
Proof.
  rewrite copy_dest_run. destruct (makedirs _ _) as [e|n] eqn:Hm; [done|].
  rewrite (copytree_run _ _ _ _ Hm). cbv zeta.
  by destruct (walk (Some n) (parts src)) as [[?|?]|].
Qed.

Lemma step_pairs_steps tmp ts : step_pairs (steps tmp ts) = pairs tmp ts.
Proof.
  unfold step_pairs, steps, pairs. induction ts as [|t ts IH]; [done|].
  rewrite !fmap_cons. cbn [concat]. rewrite omap_app, IH. f_equal.
  unfold steps_of_task, task_pairs. cbn [omap list_omap].
  induction t.2 as [|d ds IHd]; [done|].
  rewrite !fmap_cons. cbn [omap list_omap]. by rewrite IHd.
Qed.

(** A loop that raises stops there: the iterations before the one that
    raised have completed, and the state and the outcome of the loop are
    those of the iteration that raised. *)
Lemma for_each_stops {A} (l : list A) body w :
  (for_each l body w).2 = Done ()
  ∨ ∃ k x wk e,
      l !! k = Some x
      ∧ for_each (take k l) body w = (wk, Done ())
      ∧ body x wk = for_each l body w
      ∧ (for_each l body w).2 = Raised e.
Proof.
  revert w; induction l as [|x l IH]; intros w; [by left|].
  cbn [for_each]. rewrite bind_run.
  destruct (body x w) as [w1 [[]|e]] eqn:E.
  - destruct (IH w1) as [H|(k & y & wk & e & Hk & Ht & Hb & Hr)]; [by left|].
    right. exists (S k), y, wk, e. split; [done|]. split; [|done].
    cbn [take for_each]. by rewrite bind_run, E.
  - right. exists 0, x, w, e. by rewrite E.
Qed.

(** The [copytree] calls of a sequence of steps that completed are those of
    its copy steps, in order. *)
Lemma steps_done_copies l w w' :
  for_each l exec w = (w', Done ()) →
  copies (log w') = copies (log w) ++ step_pairs l.
Proof.
  revert w; induction l as [|s l IH]; intros w.
  - intros [= <-]. simpl. by rewrite app_nil_r.
  - cbn [for_each]. rewrite bind_run. destruct s as [src|src d].
    + pose proof (exec_check_fs src w) as Hw.
      destruct (exec (IsDir src) w) as [w1 [[]|e]]; cbn [fst] in Hw; [|done].
      subst w1. apply IH.
    + cbn [exec]. pose proof (copy_dest_logged_done src d w) as Hdone.
      destruct (copy_dest src d w) as [w1 [[]|e]]; cbn [fst snd] in *; [|done].
      intros ->%IH. rewrite (Hdone eq_refl), copies_app. simpl.
      by rewrite <-app_assoc.
Qed.

(** X4. The run is fail-fast and keeps the order of the table.  The copy
    phase is the sequence of the checks and copies of the table, in table
    order.  A run that completes has made the [copytree] calls of all pairs
    of the table, in order.  A run that raises in the fetch step has made
    none.  A run that raises in the copy phase raised in some step [k]: the
    steps before it have completed, the state and the outcome of the run
    are those in which step [k] raised (no later step has run), and the
    [copytree] calls made are those of the first [n] pairs of the table,
    the copies among the steps before [k], followed by that of step [k]
    itself, pair [n] of the table, when it is [copytree] that raised. *)
Theorem run_is_fail_fast file remote w :
  (∀ w0, copy_all (tmp_repo file) (tasks file) w0
         = for_each (steps (tmp_repo file) (tasks file)) exec w0)
  ∧ (((main file remote w).2 = Done ()
      ∧ copies (log (main file remote w).1)
        = copies (log w) ++ pairs (tmp_repo file) (tasks file))
     ∨ (∃ e, fetch file remote w = main file remote w
          ∧ (main file remote w).2 = Raised e
          ∧ copies (log (main file remote w).1) = copies (log w))
     ∨ (∃ w1 k s wk e n,
          fetch file remote w = (w1, Done ())
          ∧ steps (tmp_repo file) (tasks file) !! k = Some s
          ∧ for_each (take k (steps (tmp_repo file) (tasks file))) exec w1
            = (wk, Done ())
          ∧ exec s wk = main file remote w
          ∧ (main file remote w).2 = Raised e
          ∧ n = length (step_pairs
                          (take k (steps (tmp_repo file) (tasks file))))
          ∧ copies (log wk)
            = copies (log w) ++ take n (pairs (tmp_repo file) (tasks file))
          ∧ (copies (log (main file remote w).1) = copies (log wk)
             ∨ ∃ src d, s = CopyTo src d
                 ∧ pairs (tmp_repo file) (tasks file) !! n
                   = Some (src, dest_of d)
                 ∧ copies (log (main file remote w).1)
                   = copies (log wk) ++ [(src, dest_of d)]))).
Proof.
  split; [apply copy_all_steps|].
  rewrite main_run. pose proof (fetch_copies file remote w) as Hc.
  destruct (fetch file remote w) as [w1 [[]|e]] eqn:Hf; cbn [fst] in Hc.
  2: { right; left. by exists e. }
  rewrite copy_all_steps. set (l := steps (tmp_repo file) (tasks file)).
  destruct (for_each_stops l exec w1)
    as [Hd|(k & s & wk & e & Hk & Ht & Hb & Hr)].
  { left. split; [done|].
    destruct (for_each l exec w1) as [w' r] eqn:E. cbn [fst snd] in *.
    subst r. rewrite (steps_done_copies _ _ _ E), Hc. unfold l.
    by rewrite step_pairs_steps. }
  right; right.
  assert (pairs (tmp_repo file) (tasks file)
          = step_pairs (take k l) ++ step_pairs (s :: drop (S k) l)) as HP.
  { rewrite <-step_pairs_steps. fold l. unfold step_pairs.
    by rewrite <-omap_app, take_drop_middle. }
  exists w1, k, s, wk, e, (length (step_pairs (take k l))).
  do 6 (split; [done|]). split.
  { rewrite (steps_done_copies _ _ _ Ht), Hc, HP. by rewrite take_app_length. }
  rewrite <-Hb. destruct s as [src|src d].
  { left. by rewrite exec_check_fs. }
  cbn [exec]. destruct (copy_dest_logged src d wk) as [Hl|Hl];
    rewrite Hl, copies_app; simpl.
  - left. by rewrite app_nil_r.
  - right. exists src, d. split; [done|]. split; [|done].
    rewrite HP. by apply list_lookup_middle.
Qed.

(** * A destination that was not there *)

(** A run that completed, at one destination of the table: the source
    sub-folder is a directory of the clone and the destination holds the
    result of a copy loop that recorded no error. *)
Lemma main_done_at_dest file remote w w' key dests d :
  main file remote w = (w', Done ()) →
  (key, dests) ∈ tasks file → d ∈ dests →
  ∃ es,
    (∀ q, look w' (parts (tmp_repo file / key) ++ q) = walk (Some (Dir es)) q)
    ∧ (∀ q, look w' (parts (dest_of d) ++ q)
            = walk (Some (Dir (copy_loop copy_entry es
                 (slot_entries (look w (parts (dest_of d))))).1)) q)
    ∧ (copy_loop copy_entry es
         (slot_entries (look w (parts (dest_of d))))).2 = false.
Proof.
  intros Hmain Hk Hd.
  assert (∃ tree, remote = Some tree
            ∧ ∀ q, look w' (parts (tmp_repo file) ++ q)
                   = walk (Some (Dir tree)) q) as (tree & -> & Hclone).
  { rewrite main_run in Hmain.
    destruct (fetch file remote w) as [w1 [[]|e]] eqn:Hf; [|done].
    destruct (fetch_done _ _ _ _ Hf) as (tree & -> & Htree).
    exists tree. split; [done|]. intros q.
    by rewrite <-Htree, <-(copy_all_keeps_clone file w1 q), Hmain. }
  destruct (main_at_dest file tree w key dests d Hk Hd)
    as [[Hr _]|(es & Hes & Hq & Hclean)]; rewrite Hmain in *; [done|].
  cbn [fst snd] in *. exists es. split; [|split; [done|by apply Hclean]].
  intros q. cbn [parts joinpath]. by rewrite <-app_assoc, Hclone, <-Hes.
Qed.

(** Copying into nothing gives the source itself, without error. *)
Lemma copy_entry_fresh name child : copy_entry name child None = (child, false).
Proof.
  remember (node_size child) as n eqn:Hn. revert name child Hn.
  induction n as [n IH] using lt_wf_ind; intros name child ->.
  destruct child as [data|es]; [done|]. cbn [copy_entry].
  destruct (copy_loop_spec copy_entry es ∅) as [Hl He].
  assert ((copy_loop copy_entry es ∅).1 = es) as ->.
  { apply map_eq; intros k. rewrite Hl, lookup_empty.
    destruct (es !! k) as [c|] eqn:E; [|done].
    by erewrite IH; [| by eapply node_size_child |]. }
  f_equal. apply not_true_is_false. intros (k & c & E & Hb)%He.
  rewrite lookup_empty in Hb.
  by erewrite IH in Hb; [| by eapply node_size_child |].
Qed.

(** X5. After a run that completed, a destination that was absent, or an
    empty directory, before the run is an exact copy of its cloned source
    sub-folder: the two directories are equal, with nothing added and
    nothing left out. *)
Theorem fresh_destination_exact file remote w w' key dests d :
  main file remote w = (w', Done ()) →
  (key, dests) ∈ tasks file → d ∈ dests →
  slot_entries (look w (parts (dest_of d))) = ∅ →
  look w' (parts (dest_of d)) = look w' (parts (tmp_repo file / key))
  ∧ slot_is_dir (look w' (parts (dest_of d))) = true.
Proof.
  intros Hmain Hk Hd Hempty.
  destruct (main_done_at_dest _ _ _ _ _ _ _ Hmain Hk Hd) as (es & HS & HD & _).
  specialize (HS []). specialize (HD []). rewrite app_nil_r in HS, HD.
  rewrite Hempty in HD. cbn [walk] in HS, HD.
  pose proof (copy_entry_fresh EmptyString (Dir es)) as Hfresh.
  cbn [copy_entry] in Hfresh. injection Hfresh as Hfresh _.
  rewrite Hfresh in HD. by rewrite HD, HS.
Qed.

Lemma fresh_destination_exact_witness :
  main ex_file (Some ex_remote) ex_world
    = ((main ex_file (Some ex_remote) ex_world).1, Done ())
  ∧ slot_entries (look ex_world ["proj"; "ML"; "try2"; "models"]) = ∅
  ∧ look (main ex_file (Some ex_remote) ex_world).1
      ["proj"; "ML"; "try2"; "models"]
    = Some (Dir {[ "f.txt" := File [x04]; "sub" := Dir ∅ ]}).
Proof.
  assert (main ex_file (Some ex_remote) ex_world
          = ((main ex_file (Some ex_remote) ex_world).1, Done ()))
    as Hmain by (vm_compute; reflexivity).
  split; [exact Hmain|]. split; [reflexivity|].
  destruct (fresh_destination_exact ex_file (Some ex_remote) ex_world _
              "models_enronsent"
              [ (project_root ex_file / "ML" / "try2", "models");
                (project_root ex_file / "Evaluation" / "try2", "models") ]
              (project_root ex_file / "ML" / "try2", "models") Hmain)
    as [Heq _].
  - do 3 apply list_elem_of_further. apply list_elem_of_here.
  - apply list_elem_of_here.
  - reflexivity.
  - etransitivity; [exact Heq|]. vm_compute. reflexivity.
Defined.

(** * Nothing is removed and nothing changes kind *)

Lemma kind_kept_refl a : kind_kept a a.
Proof. destruct a as [[x|es]|]; simpl; eauto. Qed.

Lemma kind_kept_trans a b c : kind_kept a b → kind_kept b c → kind_kept a c.
Proof.
  destruct a as [[x|es]|]; simpl; [|by destruct b as [[?|?]|]|done].
  by intros [data ->].
Qed.

Lemma makedirs_kind p slot n q :
  makedirs p slot = inr n → kind_kept (walk slot q) (walk (Some n) q).
Proof.
  revert slot n q; induction p as [|c p IH]; intros slot n q; simpl.
  - destruct slot as [[x|es]|]; intros; simplify_eq;
      [apply kind_kept_refl|by rewrite walk_None].
  - destruct slot as [[x|es]|]; [done| |by rewrite walk_None].
    destruct (makedirs p (es !! c)) as [e|n'] eqn:E; [done|].
    intros [= <-]. destruct q as [|b q]; [done|]. simpl.
    rewrite lookup_insert. case_decide; subst; [by apply IH|].
    apply kind_kept_refl.
Qed.

Lemma graft_kind p new slot :
  (∀ q, kind_kept (walk (walk slot p) q) (walk new q)) →
  ∀ q, kind_kept (walk slot q) (walk (graft p new slot) q).
Proof.
  revert slot; induction p as [|a p IH]; intros slot Hnew q; [apply Hnew|].
  simpl. destruct slot as [[x|es]|]; try apply kind_kept_refl.
  destruct q as [|b q]; [done|]. simpl. rewrite lookup_partial_alter.
  case_decide; subst; [by apply IH|apply kind_kept_refl].
Qed.

Lemma graft_outside_kind p new slot q :
  (∀ r, q ≠ p ++ r) →
  kind_kept (walk slot q) (walk (graft p new slot) q).
Proof.
  revert slot q; induction p as [|a p IH]; intros slot q Hq.
  - by destruct (Hq q).
  - simpl. destruct slot as [[x|es]|]; try apply kind_kept_refl.
    destruct q as [|b q]; [done|]. simpl. rewrite lookup_partial_alter.
    case_decide; subst; [|apply kind_kept_refl].
    apply IH. intros r ->. by apply (Hq r).
Qed.

(** The copy loop replaces no directory by a file and no file by a
    directory, and removes nothing. *)
Lemma copy_entry_kind q name child slot :
  kind_kept (walk slot q) (walk (Some (copy_entry name child slot).1) q).
Proof.
  revert name child slot; induction q as [|b q IH]; intros name child slot.
  - destruct slot as [[x|e]|]; [| |done].
    + destruct child; simpl; eauto.
    + destruct child as [data|es]; simpl; [|done].
      by destruct (e !! name) as [[?|?]|].
  - destruct slot as [[x|e]|]; [done| |done].
    destruct child as [data|es].
    + simpl. destruct (e !! name) as [[y|e']|] eqn:E; simpl.
      * rewrite lookup_insert. case_decide; subst; [|apply kind_kept_refl].
        rewrite E. destruct q; simpl; eauto.
      * apply kind_kept_refl.
      * rewrite lookup_insert. case_decide; subst; [|apply kind_kept_refl].
        rewrite E. by rewrite walk_None.
    + cbn [copy_entry fst walk]. rewrite copy_loop_lookup.
      destruct (es !! b) as [c|]; [apply IH|apply kind_kept_refl].
Qed.

Lemma copy_dest_kind src d w q :
  kind_kept (look w q) (look (copy_dest src d w).1 q).
Proof.
  pose proof (parts_joinpath_ne d.1 d.2) as Hne. fold (dest_of d) in Hne.
  rewrite copy_dest_run. unfold look.
  destruct (makedirs _ _) as [e|n] eqn:Hm; [apply kind_kept_refl|].
  rewrite (copytree_run _ _ _ _ Hm). cbv zeta.
  eapply kind_kept_trans; [by eapply makedirs_kind|].
  destruct (walk (Some n) (parts src)) as [[x|es]|];
    cbn [fst fs]; try apply kind_kept_refl.
  rewrite (graft_root_Some _ _ _ Hne). apply graft_kind. intros r.
  pose proof (makedirs_walk _ [] _ _ Hm) as Hn. rewrite app_nil_r in Hn.
  cbn [walk] in Hn. rewrite Hn. cbn [slot_entries].
  apply (copy_entry_kind r EmptyString (Dir es) (Some (Dir _))).
Qed.

Lemma fetch_kind file remote w q :
  (∀ r, q ≠ parts (tmp_repo file) ++ r) →
  kind_kept (look w q) (look (fetch file remote w).1 q).
Proof.
  intros Hq. pose proof (tmp_repo_ne file) as Hne.
  rewrite fetch_run. cbv zeta. unfold look.
  destruct (walk (Some (fs w)) (parts (tmp_repo file))) as [[x|old]|].
  - apply kind_kept_refl.
  - destruct remote; cbn [fst fs]; rewrite (graft_root_Some _ _ _ Hne);
      by apply graft_outside_kind.
  - destruct (makedirs _ _) as [e|n] eqn:Hm; [apply kind_kept_refl|].
    destruct remote; cbn [fst fs]; [|by eapply makedirs_kind].
    eapply kind_kept_trans; [by eapply makedirs_kind|].
    rewrite (graft_root_Some _ _ _ Hne). by apply graft_outside_kind.
Qed.

Lemma main_kind file remote w q :
  (∀ r, q ≠ parts (tmp_repo file) ++ r) →
  kind_kept (look w q) (look (main file remote w).1 q).
Proof.
  intros Hq. rewrite main_run.
  pose proof (fetch_kind file remote w q Hq) as Hf.
  destruct (fetch file remote w) as [w1 [[]|e]]; cbn [fst] in Hf; [|done].
  rewrite copy_all_steps.
  apply (for_each_invariant (λ w0, kind_kept (look w q) (look w0 q)));
    [|done].
  intros s w0 _ H0. destruct s as [src|src d].
  - by rewrite exec_check_fs.
  - eapply kind_kept_trans; [done|]. apply copy_dest_kind.
Qed.

(** X6. Outside [tmp_hf_repo] the run removes nothing and changes the kind
    of nothing, whatever the remote and however it ends: a path that held a
    regular file before the run holds a regular file after it, and a path
    that held a directory holds a directory. *)
Theorem run_keeps_kinds file remote w q :
  (∀ r, q ≠ parts (tmp_repo file) ++ r) →
  kind_kept (look w q) (look (main file remote w).1 q).
Proof. apply main_kind. Qed.

Lemma run_keeps_kinds_witness :
  (∀ r, ["proj"; "ML"; "try1"; "data"; "keep.txt"]
        ≠ parts (tmp_repo ex_file) ++ r)
  ∧ look ex_world_merge ["proj"; "ML"; "try1"; "data"; "keep.txt"]
    = Some (File [xaa])
  ∧ ∃ data, look (main ex_file (Some ex_remote) ex_world_merge).1
              ["proj"; "ML"; "try1"; "data"; "keep.txt"] = Some (File data).
Proof.
  assert (∀ r, ["proj"; "ML"; "try1"; "data"; "keep.txt"]
               ≠ parts (tmp_repo ex_file) ++ r) as Hq.
  { intros r H. simpl in H. discriminate H. }
  split; [exact Hq|]. split; [reflexivity|].
  exact (run_keeps_kinds ex_file (Some ex_remote) ex_world_merge _ Hq).
Defined.

(** * A regular file in the way of a destination *)

Lemma diverge_under p r : diverge p (p ++ r) = false.
Proof.
  induction p as [|a p IH]; simpl; [by destruct r|]. by rewrite decide_True.
Qed.

Lemma diverge_not_above p q k r :
  diverge p q = true → take k q ≠ p ++ r.
Proof.
  intros Hd Hk. rewrite <-(take_drop k q), Hk, <-app_assoc in Hd.
  by rewrite diverge_under in Hd.
Qed.

(** X7. When a regular file sits at a destination of the table, or
    anywhere above it, the run does not complete, whatever the remote: the
    file is not replaced by the directory the copy needs. *)
Theorem file_in_the_way file remote w key dests d k data :
  (key, dests) ∈ tasks file → d ∈ dests →
  look w (take k (parts (dest_of d))) = Some (File data) →
  (main file remote w).2 ≠ Done ().
Proof.
  intros Hk Hd Hfile Hdone.
  destruct (main file remote w) as [w' r] eqn:Hmain. cbn [snd] in Hdone.
  subst r.
  destruct (main_done_at_dest _ _ _ _ _ _ _ Hmain Hk Hd) as (es & _ & HD & _).
  specialize (HD []). rewrite app_nil_r in HD. cbn [walk] in HD.
  pose proof (walk_prefix_dir _ _ k _ HD) as Hdir.
  pose proof (main_kind file remote w (take k (parts (dest_of d)))) as Hkind.
  rewrite Hmain, Hfile in Hkind. cbn [fst kind_kept] in Hkind.
  destruct Hkind as [data' Hw'].
  - intros r. apply diverge_not_above. by eapply dest_diverges_tmp.
  - unfold look in *. by rewrite Hw' in Hdir.
Qed.

Lemma file_in_the_way_witness :
  look ex_world_blocked
    (take 2 (parts (dest_of (project_root ex_file / "ML" / "try1", "data"))))
    = Some (File [xee])
  ∧ (main ex_file (Some ex_remote) ex_world_blocked).2 ≠ Done ().
Proof.
  split; [reflexivity|].
  apply (file_in_the_way ex_file (Some ex_remote) ex_world_blocked
           "data_vocab"
           [ (project_root ex_file / "Evaluation" / "try1", "data");
             (project_root ex_file / "ML" / "try1", "data") ]
           (project_root ex_file / "ML" / "try1", "data") 2 [xee]).
  - apply list_elem_of_here.
  - apply list_elem_of_further, list_elem_of_here.
  - reflexivity.
Defined.

(** * When the run completes *)

Lemma compatible_lookup es d0 k c :
  compatible (Dir es) (Some (Dir d0)) = true → es !! k = Some c →
  compatible c (d0 !! k) = true.
Proof.
  simpl. intros Hf. revert k c. revert Hf.
  apply (map_fold_weak_ind (λ (r : bool) m,
    r = true → ∀ k c, m !! k = Some c → compatible c (d0 !! k) = true)).
  - intros _ k c. by rewrite lookup_empty.
  - intros i x m r Hi IH [Hr Hx]%andb_true_iff k c. rewrite lookup_insert.
    case_decide; simplify_eq; [by intros [= <-]|]. by apply IH.
Qed.

Lemma compatible_intro es d0 :
  (∀ k c, es !! k = Some c → compatible c (d0 !! k) = true) →
  compatible (Dir es) (Some (Dir d0)) = true.
Proof.
  simpl.
  apply (map_fold_weak_ind (λ (r : bool) m,
    (∀ k c, m !! k = Some c → compatible c (d0 !! k) = true) → r = true));
    [done|].
  intros i x m r Hi IH Hall. apply andb_true_iff. split.
  - apply IH. intros k c Hk. apply Hall. rewrite lookup_insert_ne; [done|].
    intros ->. by rewrite Hi in Hk.
  - apply Hall. by rewrite lookup_insert_eq.
Qed.

Lemma compatible_None c : compatible c None = true.
Proof. by destruct c. Qed.

Lemma compatible_entries es slot :
  compatible (Dir es) slot = true →
  compatible (Dir es) (Some (Dir (slot_entries slot))) = true.
Proof.
  destruct slot as [[x|d0]|]; [done|done|]. intros _.
  apply compatible_intro. intros k c _. cbn [slot_entries].
  rewrite lookup_empty. apply compatible_None.
Qed.

(** A compatible destination is copied into without error. *)
Lemma compatible_clean name child slot :
  compatible child slot = true → (copy_entry name child slot).2 = false.
Proof.
  remember (node_size child) as n eqn:Hn. revert name child slot Hn.
  induction n as [n IH] using lt_wf_ind; intros name child slot -> Hc.
  destruct child as [data|es].
  - by destruct slot as [[x|e]|].
  - destruct slot as [[x|d0]|]; [done| |by rewrite copy_entry_fresh].
    cbn [copy_entry snd]. apply not_true_is_false.
    intros (k & c & E & Hb)%copy_loop_spec.
    erewrite IH in Hb; [done|by eapply node_size_child|done|].
    by eapply compatible_lookup.
Qed.

Lemma makedirs_clear_other p q slot n :
  makedirs p slot = inr n → diverge p q = true →
  clear q (Some n) = clear q slot.
Proof.
  revert q slot n; induction p as [|a p IH]; intros [|b q] slot n; simpl;
    try done.
  intros Hm Hd. destruct slot as [[x|es]|]; [done| |].
  - destruct (makedirs p (es !! a)) as [e|n'] eqn:E; [done|].
    simplify_eq. simpl. rewrite lookup_insert.
    case_decide; subst; [by eapply IH|done].
  - destruct (makedirs p None) as [e|n'] eqn:E; [done|].
    simplify_eq. simpl. case_decide; subst.
    + rewrite lookup_singleton_eq. erewrite IH by done. by destruct q.
    + rewrite lookup_singleton_ne by done. by destruct q.
Qed.

Lemma graft_clear_other p q new slot :
  diverge p q = true → clear q (graft p new slot) = clear q slot.
Proof.
  revert q slot; induction p as [|a p IH]; intros [|b q] slot; simpl;
    try done.
  intros Hd. destruct slot as [[x|es]|]; try done. simpl.
  rewrite lookup_partial_alter. case_decide; subst; [by apply IH|done].
Qed.

Lemma copy_dest_clear src d w q :
  diverge (parts (dest_of d)) q = true →
  clear q (Some (fs (copy_dest src d w).1)) = clear q (Some (fs w)).
Proof.
  intros Hd. pose proof (parts_joinpath_ne d.1 d.2) as Hne.
  fold (dest_of d) in Hne. rewrite copy_dest_run.
  destruct (makedirs _ _) as [e|n] eqn:Hm; [done|].
  rewrite (copytree_run _ _ _ _ Hm). cbv zeta.
  rewrite <-(makedirs_clear_other _ _ _ _ Hm Hd).
  destruct (walk (Some n) (parts src)) as [[x|es]|]; cbn [fst fs]; try done.
  by rewrite (graft_root_Some _ _ _ Hne), graft_clear_other.
Qed.

Lemma fetch_clear file remote w q :
  diverge (parts (tmp_repo file)) q = true →
  clear q (Some (fs (fetch file remote w).1)) = clear q (Some (fs w)).
Proof.
  intros Hd. pose proof (tmp_repo_ne file) as Hne.
  rewrite fetch_run. cbv zeta.
  destruct (look w (parts (tmp_repo file))) as [[x|old]|]; [done| |].
  - destruct remote; cbn [fst fs];
      by rewrite (graft_root_Some _ _ _ Hne), graft_clear_other.
  - destruct (makedirs _ _) as [e|n] eqn:Hm; [done|].
    rewrite <-(makedirs_clear_other _ _ _ _ Hm Hd).
    destruct remote; cbn [fst fs]; [|done].
    by rewrite (graft_root_Some _ _ _ Hne), graft_clear_other.
Qed.

(** A step that is ready completes. *)
Lemma exec_ready s w : step_ok s → ready s w → (exec s w).2 = Done ().
Proof.
  destruct s as [src|src d]; cbn [step_ok ready exec].
  - intros _ Hs. unfold is_dir. run. by rewrite Hs.
  - intros Hok (es & Hsrc & Hclear & Hcomp).
    rewrite copy_dest_run.
    destruct (proj1 (makedirs_clear _ _) Hclear) as [n Hm]. rewrite Hm.
    rewrite (copytree_run _ _ _ _ Hm). cbv zeta.
    rewrite (makedirs_diverge _ _ _ _ Hm Hok). unfold look in Hsrc.
    rewrite Hsrc.
    pose proof (makedirs_walk _ [] _ _ Hm) as Hn. rewrite app_nil_r in Hn.
    cbn [walk] in Hn. rewrite Hn. cbn [slot_entries snd].
    apply compatible_entries in Hcomp.
    pose proof (compatible_clean EmptyString _ _ Hcomp) as Hclean.
    cbn [copy_entry snd] in Hclean. unfold look in Hclean.
    by rewrite Hclean.
Qed.

(** A step that is ready stays ready when a step apart from it runs. *)
Lemma ready_frame s s' w : apart s s' → ready s' w → ready s' (exec s w).1.
Proof.
  destruct s as [src|src d]; [intros _; by rewrite exec_check_fs|].
  cbn [apart exec]. intros Hap.
  assert (∀ p, p ∈ reads s' →
            look (copy_dest src d w).1 p = look w p
            ∧ clear p (Some (fs (copy_dest src d w).1))
              = clear p (Some (fs w))) as Hp.
  { intros p Hin. eapply Forall_forall in Hap; [|done].
    split; [by apply copy_dest_frame|by apply copy_dest_clear]. }
  destruct s' as [src'|src' d']; cbn [ready reads] in *.
  - destruct (Hp (parts src')) as [Hl _]; [apply list_elem_of_here|].
    by rewrite Hl.
  - intros (es & Hsrc & Hclear & Hcomp). exists es.
    destruct (Hp (parts src')) as [Hl _]; [apply list_elem_of_here|].
    destruct (Hp (parts (dest_of d'))) as [Hl' Hc'];
      [apply list_elem_of_further, list_elem_of_here|].
    by rewrite Hl, Hl', Hc'.
Qed.

Lemma steps_complete l w :
  all_apart l → Forall (λ s, ready s w) l →
  (for_each l exec w).2 = Done ().
Proof.
  revert w; induction l as [|s l IH]; intros w Hap Hr; [done|].
  destruct Hap as (Hok & Hlater & _ & Hap).
  apply Forall_cons in Hr as [Hs Hr]. cbn [for_each]. rewrite bind_run.
  pose proof (exec_ready s w Hok Hs) as Hdone.
  assert (Forall (λ s', ready s' (exec s w).1) l) as Hr'.
  { apply Forall_forall. intros s' Hin.
    eapply Forall_forall in Hlater; [|exact Hin].
    eapply Forall_forall in Hr; [|exact Hin].
    by apply ready_frame. }
  destruct (exec s w) as [w1 r]. cbn [fst snd] in *. subst r.
  by apply IH.
Qed.

Lemma tasks_all_apart file :
  all_apart (steps (tmp_repo file) (tasks file)).
Proof.
  unfold tasks, tmp_repo. generalize (project_root file). intros root.
  cbn [steps steps_of_task fmap list_fmap concat app fst snd all_apart reads
       step_ok apart].
  repeat first
    [ exact I | apply Forall_nil | apply conj | apply Forall_cons ];
    solve_diverge.
Qed.

Ltac pick_elem :=
  first [ apply list_elem_of_here | apply list_elem_of_further; pick_elem ].

(** X8. The run completes when: no regular file is at or above
    [tmp_hf_repo]; the clone can be made and has a directory for every key
    of the table; no regular file is at or above any destination; and every
    destination that exists is compatible with its source sub-folder. *)
Theorem run_completes file tree w :
  clear (parts (tmp_repo file)) (Some (fs w)) = true →
  (∀ key dests d, (key, dests) ∈ tasks file → d ∈ dests →
     ∃ es, tree !! key = Some (Dir es)
       ∧ clear (parts (dest_of d)) (Some (fs w)) = true
       ∧ compatible (Dir es) (look w (parts (dest_of d))) = true) →
  (main file (Some tree) w).2 = Done ().
Proof.
  intros Htmp Hall. rewrite main_run.
  destruct (fetch_clear_done file tree w Htmp) as (w1 & Hf & Hclone).
  pose proof (λ q, fetch_frame file (Some tree) w q) as Hframe.
  pose proof (λ q, fetch_clear file (Some tree) w q) as Hclear.
  rewrite Hf in *. cbn [fst] in *. rewrite copy_all_steps.
  apply steps_complete; [apply tasks_all_apart|].
  assert (∀ key dests d, (key, dests) ∈ tasks file → d ∈ dests →
            ready (IsDir (tmp_repo file / key)) w1
            ∧ ready (CopyTo (tmp_repo file / key) d) w1) as Hready.
  { intros key dests d Hk Hd.
    destruct (Hall key dests d Hk Hd) as (es & Hes & Hc & Hcomp).
    pose proof (dest_diverges_tmp _ _ _ _ Hk Hd) as Hdiv.
    assert (look w1 (parts (tmp_repo file / key)) = Some (Dir es)) as Hsrc.
    { cbn [parts joinpath]. by rewrite Hclone. }
    split; [cbn [ready]; by rewrite Hsrc|].
    exists es. split; [exact Hsrc|]. by rewrite Hframe, Hclear by done. }
  clear Hall Hf Hclone Hframe Hclear Htmp.
  unfold tasks in *. unfold tmp_repo in *.
  generalize dependent (project_root file). intros root Hready.
  pose proof (λ k ds d Hk Hd, proj1 (Hready k ds d Hk Hd)) as Hdir.
  pose proof (λ k ds d Hk Hd, proj2 (Hready k ds d Hk Hd)) as Hcopy.
  cbn [steps steps_of_task fmap list_fmap concat app fst snd].
  repeat (apply Forall_cons; split); try (by apply Forall_nil);
    first [ eapply Hdir | eapply Hcopy ]; pick_elem.
Qed.

Lemma run_completes_witness :
  clear (parts (tmp_repo ex_file)) (Some (fs ex_world_merge)) = true
  ∧ (main ex_file (Some ex_remote) ex_world_merge).2 = Done ().
Proof.
  split; [reflexivity|].
  apply (run_completes ex_file ex_remote ex_world_merge eq_refl).
  intros key dests d Hk Hd.
  repeat (apply elem_of_cons in Hk as [Hk|Hk];
          [injection Hk as -> ->|]);
    [..|by apply elem_of_nil in Hk];
    repeat (apply elem_of_cons in Hd as [->|Hd]);
    try (by apply elem_of_nil in Hd);
    (eexists; split; [reflexivity|split; reflexivity]).
Defined.

(** * The [mkdir] call of line 47 *)

(** [copytree] in any state. *)
Lemma copytree_alone src dst w :
  copytree src dst w =
  let lg := log w ++ [EvCopytree src dst] in
  match look w (parts src) with
  | Some (Dir es) =>
      match makedirs (parts dst) (Some (fs w)) with
      | inl e => (mkWorld (fs w) lg, Raised e)
      | inr n =>
          let r := copy_loop copy_entry es
                     (slot_entries (walk (Some n) (parts dst))) in
          (mkWorld (graft_root (parts dst) (Some (Dir r.1)) n) lg,
           if r.2 then Raised ShutilError else Done ())
      end
  | Some (File _) => (mkWorld (fs w) lg, Raised NotADirectoryError)
  | None => (mkWorld (fs w) lg, Raised FileNotFoundError)
  end.
Proof.
  unfold copytree. run. unfold look. cbn [fs].
  destruct (walk _ _) as [[?|es]|]; try by run.
  run. destruct (makedirs _ _) as [e|n]; [done|]. run.
  unfold look. cbn [fs]. by destruct (copy_loop _ _ _).2.
Qed.

(** One pass of the inner loop and [copytree] alone, from the same state
    with the source a directory the destination does not touch: the same
    filesystem and the same outcome. *)
Lemma copy_dest_copytree src d w :
  slot_is_dir (look w (parts src)) = true →
  diverge (parts (dest_of d)) (parts src) = true →
  fs (copy_dest src d w).1 = fs (copytree src (dest_of d) w).1
  ∧ (copy_dest src d w).2 = (copytree src (dest_of d) w).2.
Proof.
  intros Hs Hd. rewrite copy_dest_run, copytree_alone. cbv zeta.
  destruct (look w (parts src)) as [[x|es]|] eqn:Hsrc; try done.
  destruct (makedirs _ _) as [e|n] eqn:Hm; [done|].
  rewrite (copytree_run _ _ _ _ Hm). cbv zeta.
  rewrite (makedirs_diverge _ _ _ _ Hm Hd). unfold look in Hsrc.
  by rewrite Hsrc.
Qed.

(** X9. For every pair of the table, once the check of line 43 has passed,
    the [mkdir] call of line 47 changes neither the resulting filesystem
    nor the outcome: [copytree] alone creates the destination with its
    parents, and raises the same error when a regular file is in the
    way. *)
Theorem mkdir_adds_nothing file key dests d w :
  (key, dests) ∈ tasks file → d ∈ dests →
  slot_is_dir (look w (parts (tmp_repo file / key))) = true →
  fs (copy_dest (tmp_repo file / key) d w).1
  = fs (copytree (tmp_repo file / key) (dest_of d) w).1
  ∧ (copy_dest (tmp_repo file / key) d w).2
    = (copytree (tmp_repo file / key) (dest_of d) w).2.
Proof.
  intros Hk Hd Hs. apply copy_dest_copytree; [done|].
  pose proof (dest_diverges_tmp _ _ _ _ Hk Hd) as Hdiv.
  rewrite diverge_sym in Hdiv. cbn [parts joinpath]. by apply diverge_app_r.
Qed.

Lemma mkdir_adds_nothing_witness :
  slot_is_dir
    (look (fetch ex_file (Some ex_remote) ex_world).1
       (parts (tmp_repo ex_file / "data_vocab"))) = true
  ∧ fs (copy_dest (tmp_repo ex_file / "data_vocab")
          (project_root ex_file / "Evaluation" / "try1", "data")
          (fetch ex_file (Some ex_remote) ex_world).1).1
    = fs (copytree (tmp_repo ex_file / "data_vocab")
            (project_root ex_file / "Evaluation" / "try1" / "data")
            (fetch ex_file (Some ex_remote) ex_world).1).1.
Proof.
  assert (slot_is_dir
            (look (fetch ex_file (Some ex_remote) ex_world).1
               (parts (tmp_repo ex_file / "data_vocab"))) = true) as Hs
    by (vm_compute; reflexivity).
  split; [exact Hs|].
  exact (proj1 (mkdir_adds_nothing ex_file "data_vocab" _
                  (project_root ex_file / "Evaluation" / "try1", "data")
                  (fetch ex_file (Some ex_remote) ex_world).1
                  (list_elem_of_here _ _) (list_elem_of_here _ _) Hs)).
Defined.

(** * No rollback *)

Lemma earlier_dests_avoid file i j key dests d :
  j < i → tasks file !! j = Some (key, dests) → d ∈ dests →
  dests_avoid (parts (dest_of d)) (drop i (tasks file)).
Proof.
  unfold tasks. generalize (project_root file). intros root Hij Hj Hd.
  destruct j as [|[|[|[|j]]]]; simpl in Hj; simplify_eq;
    repeat (apply elem_of_cons in Hd as [Hd|Hd]; [simplify_eq|]);
    try (by apply elem_of_nil in Hd);
    (destruct i as [|[|[|[|i]]]]; try lia); cbn [drop]; rewrite ?drop_nil;
    solve_dests_avoid.
Qed.

(** The destinations of the entries before [i], after the copy phase
    restricted to the entries before [i]. *)
Lemma copy_upto_at_dest file w i j key dests d :
  j < i → tasks file !! j = Some (key, dests) → d ∈ dests →
  let res := copy_all (tmp_repo file) (take i (tasks file)) w in
  let D := parts (dest_of d) in
  (res.2 ≠ Done () ∧ ∀ q, look res.1 (D ++ q) = look w (D ++ q))
  ∨ (∃ es, look w (parts (tmp_repo file / key)) = Some (Dir es)
       ∧ (∀ q, look res.1 (D ++ q)
               = walk (Some (Dir (copy_loop copy_entry es
                                    (slot_entries (look w D))).1)) q)
       ∧ (res.2 = Done () →
          (copy_loop copy_entry es (slot_entries (look w D))).2 = false)).
Proof.
  intros Hij Hj Hd res D. subst res D. rewrite copy_all_steps.
  unfold tasks in *. unfold tmp_repo.
  generalize dependent (project_root file). intros root Hj.
  destruct j as [|[|[|[|j]]]]; simpl in Hj; simplify_eq;
    repeat (apply elem_of_cons in Hd as [Hd|Hd]; [simplify_eq|]);
    try (by apply elem_of_nil in Hd);
    (destruct i as [|[|[|[|i]]]]; try lia); cbn [take]; rewrite ?take_nil;
    set (S := steps (root / "tmp_hf_repo") _);
    (first
       [ apply (steps_at_dest (take 1 S) (drop 2 S))
       | apply (steps_at_dest (take 2 S) (drop 3 S))
       | apply (steps_at_dest (take 4 S) (drop 5 S))
       | apply (steps_at_dest (take 5 S) (drop 6 S))
       | apply (steps_at_dest (take 7 S) (drop 8 S))
       | apply (steps_at_dest (take 8 S) (drop 9 S))
       | apply (steps_at_dest (take 10 S) (drop 11 S))
       | apply (steps_at_dest (take 11 S) (drop 12 S)) ];
     [ cbn; solve_avoids | cbn; solve_avoids | cbn; solve_diverge
     | cbn; set_solver ]).
Qed.

(** X10. The run does not roll back: once the entries before entry [i] of
    the table have been copied, every destination of these entries holds,
    at the end of the run and however the run ends (an error at entry [i]
    or later, or none), the copy of its cloned source sub-folder merged
    into what it held before the run. *)
Theorem earlier_copies_stay file remote w w1 i j key dests d :
  main_upto i file remote w = (w1, Done ()) →
  j < i → tasks file !! j = Some (key, dests) → d ∈ dests →
  ∃ tree es, remote = Some tree ∧ tree !! key = Some (Dir es)
    ∧ ∀ q, look (main file remote w).1 (parts (dest_of d) ++ q)
           = walk (Some (Dir (copy_loop copy_entry es
                (slot_entries (look w (parts (dest_of d))))).1)) q.
Proof.
  intros Hupto Hij Hj Hd. unfold main_upto in Hupto.
  rewrite bind_run in Hupto. rewrite main_run.
  pose proof (dest_diverges_tmp _ _ _ _ (list_elem_of_lookup_2 _ _ _ Hj) Hd)
    as Hdiv.
  pose proof (fetch_frame file remote w _ Hdiv) as Hfr.
  destruct (fetch file remote w) as [wf [[]|e]] eqn:Hf; [|done].
  cbn [fst] in Hfr.
  destruct (fetch_done _ _ _ _ Hf) as (tree & -> & Htree).
  destruct (copy_upto_at_dest file wf i j key dests d Hij Hj Hd)
    as [[Hr _]|(es & Hes & Hq & _)]; rewrite Hupto in *; [done|].
  cbn [fst] in Hq. exists tree, es. split; [done|]. split.
  - cbn [parts joinpath] in Hes. by rewrite Htree in Hes.
  - intros q. rewrite <-Hfr, <-Hq.
    rewrite <-(take_drop i (tasks file)) at 1.
    unfold copy_all in *. rewrite for_each_app, Hupto.
    apply (copy_all_frame (tmp_repo file) (drop i (tasks file))).
    by eapply earlier_dests_avoid.
Qed.

Lemma earlier_copies_stay_witness :
  (main_upto 2 ex_file (Some ex_remote_nospace) ex_world).2 = Done ()
  ∧ (main ex_file (Some ex_remote_nospace) ex_world).2
    = Raised FileNotFoundError
  ∧ look (main ex_file (Some ex_remote_nospace) ex_world).1
      ["proj"; "ML"; "try1"; "models"; "f.txt"] = Some (File [x02]).
Proof.
  assert (main_upto 2 ex_file (Some ex_remote_nospace) ex_world
          = ((main_upto 2 ex_file (Some ex_remote_nospace) ex_world).1, Done ()))
    as Hupto by (vm_compute; reflexivity).
  split; [by rewrite Hupto|]. split; [vm_compute; reflexivity|].
  destruct (earlier_copies_stay ex_file (Some ex_remote_nospace) ex_world _
              2 1 "models_vocab" _ (project_root ex_file / "ML" / "try1", "models")
              Hupto (le_n 2) eq_refl
              (list_elem_of_further _ _ _ (list_elem_of_here _ _)))
    as (tree & es & Ht & Hes & Hq).
  injection Ht as <-. vm_compute in Hes. injection Hes as <-.
  exact (Hq ["f.txt"]).
Defined.

(** * Where the bytes of a file come from *)

Lemma makedirs_files p slot n q data :
  makedirs p slot = inr n →
  walk (Some n) q = Some (File data) → walk slot q = Some (File data).
Proof.
  revert slot n q; induction p as [|c p IH]; intros slot n q; simpl.
  - destruct slot as [[x|es]|]; intros; simplify_eq; [done|].
    destruct q; [done|]. simpl in *. by rewrite lookup_empty, walk_None in *.
  - destruct slot as [[x|es]|]; [done| |].
    + destruct (makedirs p (es !! c)) as [e|n'] eqn:E; [done|].
      intros [= <-]. destruct q as [|b q]; [done|]. simpl.
      rewrite lookup_insert. case_decide; subst; [|done]. by apply IH.
    + destruct (makedirs p None) as [e|n'] eqn:E; [done|].
      intros [= <-]. destruct q as [|b q]; [done|]. simpl.
      destruct (decide (b = c)) as [->|Hne].
      * rewrite lookup_singleton_eq. intros Hw.
        pose proof (IH _ _ _ E Hw) as H0. by rewrite walk_None in H0.
      * rewrite lookup_singleton_ne by done. by rewrite walk_None.
Qed.

Lemma graft_files p new slot q data :
  walk (graft p new slot) q = Some (File data) →
  walk slot q = Some (File data)
  ∨ ∃ r, q = p ++ r ∧ walk new r = Some (File data).
Proof.
  revert slot q; induction p as [|a p IH]; intros slot q; simpl.
  - intros Hw. right. by exists q.
  - destruct slot as [[x|es]|]; [by left| |by left].
    destruct q as [|b q]; [done|]. simpl. rewrite lookup_partial_alter.
    case_decide; subst; [|by left].
    intros [Hw|(r & -> & Hw)]%IH; [by left|right; by exists r].
Qed.

(** A regular file in what the copy loop leaves was there with the same
    bytes, or has the bytes of a file of the source. *)
Lemma copy_entry_files q name child slot data :
  walk (Some (copy_entry name child slot).1) q = Some (File data) →
  walk slot q = Some (File data) ∨ holds (Some child) data.
Proof.
  revert name child slot; induction q as [|b q IH]; intros name child slot.
  - destruct child as [x|es].
    + destruct slot as [[y|e]|]; simpl.
      * intros [= <-]. right. by exists [].
      * by destruct (e !! name) as [[?|?]|].
      * intros [= <-]. right. by exists [].
    + destruct slot as [[y|e]|]; simpl; [by left|done..].
  - destruct child as [x|es].
    + destruct slot as [[y|e]|]; simpl; [done| |done].
      destruct (e !! name) as [[y|e']|] eqn:E; simpl; [|by left|].
      * rewrite lookup_insert. case_decide; subst; [|by left].
        destruct q; [|done]. intros [= <-]. right. by exists [].
      * rewrite lookup_insert. case_decide; subst; [|by left].
        destruct q; [|done]. intros [= <-]. right. by exists [].
    + destruct slot as [[y|e]|]; [done| |];
        cbn [copy_entry fst walk]; rewrite copy_loop_lookup.
      * destruct (es !! b) as [c|] eqn:E; [|by left].
        intros [Hw|[r Hr]]%IH; [by left|]. right. exists (b :: r).
        simpl. by rewrite E.
      * destruct (es !! b) as [c|] eqn:E; [|by rewrite lookup_empty, walk_None].
        intros [Hw|[r Hr]]%IH.
        -- by rewrite lookup_empty, walk_None in Hw.
        -- right. exists (b :: r). simpl. by rewrite E.
Qed.

Lemma copy_dest_files src d w q data :
  look (copy_dest src d w).1 q = Some (File data) →
  look w q = Some (File data) ∨ holds (look w (parts src)) data.
Proof.
  pose proof (parts_joinpath_ne d.1 d.2) as Hne. fold (dest_of d) in Hne.
  rewrite copy_dest_run. unfold look.
  destruct (makedirs _ _) as [e|n] eqn:Hm; [by left|].
  rewrite (copytree_run _ _ _ _ Hm). cbv zeta.
  destruct (walk (Some n) (parts src)) as [[x|es]|] eqn:Hsrc; cbn [fst fs];
    try (intros Hw; left; by eapply makedirs_files).
  rewrite (graft_root_Some _ _ _ Hne).
  intros [Hw|(r & -> & Hw)]%graft_files; [left; by eapply makedirs_files|].
  pose proof (makedirs_walk _ [] _ _ Hm) as Hd. rewrite app_nil_r in Hd.
  cbn [walk] in Hd.
  change (Dir (copy_loop copy_entry es (slot_entries
            (walk (Some n) (parts (dest_of d))))).1)
    with (copy_entry EmptyString (Dir es)
            (Some (Dir (slot_entries (walk (Some n) (parts (dest_of d))))))).1
    in Hw.
  apply copy_entry_files in Hw as [Hw|[r' Hr]].
  - left. apply (makedirs_files _ _ _ _ _ Hm). rewrite walk_app.
    by rewrite Hd in Hw |- *.
  - right. exists r'. rewrite <-walk_app.
    apply (makedirs_files _ _ _ _ _ Hm). by rewrite walk_app, Hsrc.
Qed.

Lemma copy_all_files tmp ts w q data :
  look (copy_all tmp ts w).1 q = Some (File data) →
  look w q = Some (File data) ∨ holds (look w (parts tmp)) data.
Proof.
  revert q data. unfold copy_all.
  apply (for_each_invariant (λ w0, ∀ q data,
    look w0 q = Some (File data) →
    look w q = Some (File data) ∨ holds (look w (parts tmp)) data));
    [|by left].
  intros t w0 _ H0. rewrite copy_task_run.
  destruct (slot_is_dir _); [|done].
  apply (for_each_invariant (λ w1, ∀ q data,
    look w1 q = Some (File data) →
    look w q = Some (File data) ∨ holds (look w (parts tmp)) data));
    [|done].
  intros d w1 _ H1 q data [Hw|[r Hr]]%copy_dest_files; [by apply H1|].
  unfold look in Hr. rewrite <-walk_app in Hr.
  destruct (H1 _ _ Hr) as [Hq|Hq]; [|by right].
  right. exists (t.1 :: r). unfold look in *.
  rewrite <-walk_app. cbn [parts joinpath] in Hq.
  by rewrite <-app_assoc in Hq.
Qed.

Lemma fetch_files file remote w q data :
  look (fetch file remote w).1 q = Some (File data) →
  look w q = Some (File data)
  ∨ ∃ tree r, remote = Some tree ∧ q = parts (tmp_repo file) ++ r
      ∧ walk (Some (Dir tree)) r = Some (File data).
Proof.
  pose proof (tmp_repo_ne file) as Hne. rewrite fetch_run. cbv zeta.
  unfold look.
  destruct (walk (Some (fs w)) (parts (tmp_repo file))) as [[x|old]|].
  - by left.
  - destruct remote as [tree|]; cbn [fst fs];
      rewrite (graft_root_Some _ _ _ Hne);
      (intros [Hw|(r & -> & Hw)]%graft_files; [by left|]).
    + right. by exists tree, r.
    + destruct r; [done|]. simpl in Hw. by rewrite lookup_empty, walk_None in Hw.
  - destruct (makedirs _ _) as [e|n] eqn:Hm; [by left|].
    destruct remote as [tree|]; cbn [fst fs].
    + rewrite (graft_root_Some _ _ _ Hne).
      intros [Hw|(r & -> & Hw)]%graft_files;
        [left; by eapply makedirs_files|].
      right. by exists tree, r.
    + intros Hw. left. by eapply makedirs_files.
Qed.

(** X11. The run invents no content: a regular file found anywhere after
    the run, however the run ended, was there before the run with the same
    bytes, or has the bytes of a regular file of the cloned tree. *)
Theorem only_cloned_bytes file remote w q data :
  look (main file remote w).1 q = Some (File data) →
  look w q = Some (File data)
  ∨ ∃ tree, remote = Some tree ∧ holds (Some (Dir tree)) data.
Proof.
  rewrite main_run.
  pose proof (λ q, fetch_files file remote w q data) as Hf.
  pose proof (fetch_done file remote w) as Hclone.
  destruct (fetch file remote w) as [w1 [[]|e]]; cbn [fst] in Hf.
  - destruct (Hclone w1 eq_refl) as (tree & -> & Htree).
    intros [Hw|[r Hr]]%copy_all_files.
    + destruct (Hf _ Hw) as [?|(t & r & [= <-] & -> & Hr)]; [by left|].
      right. exists tree. split; [done|]. by exists r.
    + right. exists tree. split; [done|]. exists r.
      rewrite <-Htree. unfold look in *. by rewrite walk_app.
  - intros Hw. destruct (Hf _ Hw) as [?|(t & r & -> & -> & Hr)]; [by left|].
    right. exists t. split; [done|]. by exists r.
Qed.

Lemma only_cloned_bytes_witness :
  look (main ex_file (Some ex_remote) ex_world_merge).1
    ["proj"; "ML"; "try1"; "data"; "f.txt"] = Some (File [x01])
  ∧ look ex_world_merge ["proj"; "ML"; "try1"; "data"; "f.txt"]
    = Some (File [xbb])
  ∧ holds (Some (Dir ex_remote)) [x01].
Proof.
  assert (look (main ex_file (Some ex_remote) ex_world_merge).1
            ["proj"; "ML"; "try1"; "data"; "f.txt"] = Some (File [x01]))
    as Hw by (vm_compute; reflexivity).
  split; [exact Hw|]. split; [reflexivity|].
  destruct (only_cloned_bytes ex_file (Some ex_remote) ex_world_merge _ _ Hw)
    as [Hold|(tree & Ht & Hh)].
  - discriminate Hold.
  - injection Ht as <-. exact Hh.
Defined.
